(** * program_impl: the graph store and its editing primitives

    A shallow embedding of [src/include/program_impl.h] (clDNN).  The header
    declares the program graph ([nodes_map], [inputs], [outputs],
    [processing_order], [optimized_out]) and defines inline the lookups
    [get_node] / [has_node], the edge primitives [add_connection] /
    [remove_connection] and the primitive overload of [add_intermediate].

    Representation.  A [program_node*] (or [program_node&]) is an address
    [node_ptr]; the node objects owned by the [shared_ptr]s of [nodes_map]
    live in a finite store [heap] from addresses to node records.  A
    reference passed to an editing primitive always designates a live object
    in C++; the theorems state that as the hypothesis [live].

    The header only declares [get_or_create], the four-argument
    [add_intermediate], [remove_if_dangling], [extract_and_remove],
    [calc_processing_order] and the memory dependency passes; their bodies
    are modelled from the specification, each marked as such. *)

From stdpp Require Import gmap strings list fin_maps sorting relations.

(** ** Data model *)

Abbreviation primitive_id := string (only parsing).
Abbreviation node_ptr := positive (only parsing).

(** [program_node] (declared in program_node.h; program_impl is its friend
    and touches [users] and [dependencies] directly).  [dependencies] is a
    [std::vector<program_node*>], [users] a [std::list<program_node*>]. *)
Record program_node := mk_node {
  id : primitive_id;
  dependencies : list node_ptr;
  users : list node_ptr;
  output : bool;
  constant : bool;
  data_flow : bool;
  memory_dependencies : gset primitive_id
}.

Definition set_users (f : list node_ptr → list node_ptr) (n : program_node) : program_node :=
  mk_node (id n) (dependencies n) (f (users n)) (output n) (constant n)
          (data_flow n) (memory_dependencies n).

Definition set_dependencies (f : list node_ptr → list node_ptr) (n : program_node) : program_node :=
  mk_node (id n) (f (dependencies n)) (users n) (output n) (constant n)
          (data_flow n) (memory_dependencies n).

(** The private state of [program_impl] (lines 91-97 of the header), plus the
    store of node objects. *)
Record program_impl := mk_program {
  heap : gmap node_ptr program_node;
  inputs : list node_ptr;
  outputs : list node_ptr;
  processing_order : list node_ptr;
  nodes_map : gmap primitive_id node_ptr;
  optimized_out : list primitive_id
}.

Definition with_heap (h : gmap node_ptr program_node) (p : program_impl) : program_impl :=
  mk_program h (inputs p) (outputs p) (processing_order p) (nodes_map p) (optimized_out p).

(** Mutation of one node object through a reference. *)
Definition update_node (q : node_ptr) (f : program_node → program_node)
    (p : program_impl) : program_impl :=
  with_heap (alter f q (heap p)) p.

Definition live (p : program_impl) (q : node_ptr) : Prop := is_Some (heap p !! q).

Definition deps_of (p : program_impl) (q : node_ptr) : list node_ptr :=
  match heap p !! q with Some n => dependencies n | None => [] end.

Definition users_of (p : program_impl) (q : node_ptr) : list node_ptr :=
  match heap p !! q with Some n => users n | None => [] end.

(** ** Exceptions and the state-and-error monad *)

Inductive exn :=
  | out_of_range (what : string)
  | runtime_error (what : string).

Definition M (A : Type) : Type := program_impl → (exn + A) * program_impl.

Definition ret {A} (a : A) : M A := λ p, (inr a, p).
Definition throw {A} (e : exn) : M A := λ p, (inl e, p).
Definition bind {A B} (c : M A) (k : A → M B) : M B :=
  λ p, match c p with
       | (inr a, p1) => k a p1
       | (inl e, p1) => (inl e, p1)
       end.
Definition try_catch {A} (c : M A) (handler : exn → M A) : M A :=
  λ p, match c p with
       | (inr a, p1) => (inr a, p1)
       | (inl e, p1) => handler e p1
       end.

Notation "'let*' x ':=' c 'in' k" := (bind c (λ x, k))
  (at level 10, x name, c at level 100, k at level 200).

(** ** Lookups (header lines 56-83) *)

(** [std::map::at]: throws [std::out_of_range] on a missing key. *)
Definition map_at (k : primitive_id) (m : gmap primitive_id node_ptr) : exn + node_ptr :=
  match m !! k with
  | Some q => inr q
  | None => inl (out_of_range "map::at"%string)
  end.

Definition not_found_message (k : primitive_id) : string :=
  ("Program doesn't contain primtive node: " +:+ k)%string.

(** [auto& get_node(primitive_id const& id)]: the lookup inside [try], the
    [catch (...)] rethrowing a [std::runtime_error]. *)
Definition get_node (k : primitive_id) : M node_ptr :=
  try_catch (λ p, (map_at k (nodes_map p), p))
            (λ _, throw (runtime_error (not_found_message k))).

(** [auto const& get_node(primitive_id const& id) const]: the same body on a
    [const] object, so a reader of the state. *)
Definition get_node_const (k : primitive_id) (p : program_impl) : exn + node_ptr :=
  match map_at k (nodes_map p) with
  | inr q => inr q
  | inl _ => inl (runtime_error (not_found_message k))
  end.

(** [bool has_node(const primitive_id& prim) const] *)
Definition has_node (k : primitive_id) (p : program_impl) : bool :=
  bool_decide (is_Some (nodes_map p !! k)).

(** ** Edge primitives (header lines 175-185) *)

(** [std::list::remove(v)] and the erase/[std::remove] idiom on a vector both
    drop every element equal to [v] and keep the order of the others. *)
Definition remove_all (v : node_ptr) (l : list node_ptr) : list node_ptr :=
  filter (λ x, x ≠ v) l.

Definition push_back (v : node_ptr) (l : list node_ptr) : list node_ptr := l ++ [v].

Definition add_connection (prev next : node_ptr) (p : program_impl) : program_impl :=
  let p1 := update_node prev (set_users (push_back next)) p in
  update_node next (set_dependencies (push_back prev)) p1.

Definition remove_connection (prev next : node_ptr) (p : program_impl) : program_impl :=
  let p1 := update_node prev (set_users (remove_all next)) p in
  update_node next (set_dependencies (remove_all prev)) p1.

(** ** Graph invariants *)

(** A lists B as a dependency if and only if B lists A as a user. *)
Definition mirror (p : program_impl) : Prop :=
  ∀ a b, b ∈ deps_of p a ↔ a ∈ users_of p b.

Definition count_occ_ptr (v : node_ptr) (l : list node_ptr) : nat :=
  length (filter (λ x, x = v) l).

(** The edge multisets agree: B occurs in A's dependencies as often as A
    occurs in B's users. *)
Definition mirror_multiset (p : program_impl) : Prop :=
  ∀ a b, count_occ_ptr b (deps_of p a) = count_occ_ptr a (users_of p b).

(** Executable checks of the two invariants: every edge recorded at a live
    node is matched on the other side. *)
Definition mirror_check (p : program_impl) : bool :=
  bool_decide (map_Forall (λ a n,
      Forall (λ b, a ∈ users_of p b) (dependencies n) ∧
      Forall (λ b, a ∈ deps_of p b) (users n)) (heap p)).

Definition mirror_multiset_check (p : program_impl) : bool :=
  bool_decide (map_Forall (λ a n,
      Forall (λ b, count_occ_ptr b (deps_of p a) = count_occ_ptr a (users_of p b))
             (dependencies n) ∧
      Forall (λ b, count_occ_ptr a (deps_of p b) = count_occ_ptr b (users_of p a))
             (users n)) (heap p)).

(** ** A small program used to exercise the definitions

    Nodes A, B, C at addresses 1, 2, 3; B and C both read A; B and C are the
    outputs and A the only input. *)
Definition plain_node (k : primitive_id) (ds us : list node_ptr) (out : bool) : program_node :=
  mk_node k ds us out false true ∅.

Definition sample_heap : gmap node_ptr program_node :=
  <[1%positive := plain_node "A" [] [2; 3]%positive false]>
  (<[2%positive := plain_node "B" [1%positive] [] true]>
  (<[3%positive := plain_node "C" [1%positive] [] true]> ∅)).

Definition sample_nodes_map : gmap primitive_id node_ptr :=
  <["A"%string := 1%positive]> (<["B"%string := 2%positive]> (<["C"%string := 3%positive]> ∅)).

Definition sample : program_impl :=
  mk_program sample_heap [1%positive] [2; 3]%positive [] sample_nodes_map [].

(** ** Node creation and insertion of an intermediate node *)

(** The externally supplied descriptor behind [std::shared_ptr<primitive>]:
    identifier, operation kind and ordered input identifiers. *)
Record primitive := mk_primitive {
  prim_id : primitive_id;
  prim_kind : string;
  prim_input : list primitive_id
}.

Definition new_node (prim : primitive) : program_node :=
  mk_node (prim_id prim) [] [] false false false ∅.

Definition register (q : node_ptr) (n : program_node) (p : program_impl) : program_impl :=
  mk_program (<[q := n]> (heap p)) (inputs p) (outputs p) (processing_order p)
             (<[id n := q]> (nodes_map p)) (optimized_out p).

(** Modelled from the spec: the body of [get_or_create] (declared at header
    line 162, defined outside the header).  It returns the node registered
    under the primitive's identifier when there is one; otherwise it creates a
    node without edges at a fresh address, registers it and returns it. *)
Definition get_or_create (prim : primitive) : M node_ptr :=
  λ p, match nodes_map p !! prim_id prim with
       | Some q => (inr q, p)
       | None =>
           let q := fresh (dom (heap p)) in
           (inr q, register q (new_node prim) p)
       end.

(** Modelled from the spec: the body of the four-argument [add_intermediate]
    (declared at header line 166).  [prev_idx] has to be a valid index into
    [next]'s dependency vector, an invalid edge index being a fatal structural
    error raised before anything is touched.  Otherwise [node] takes the place
    of the dependency [prev] at that index: [prev] stops listing [next] as a
    user, [node] starts to, and with [connect_int_node_with_old_dep] the old
    dependency [prev] becomes a dependency of [node]. *)
Definition add_intermediate (node next : node_ptr) (prev_idx : nat)
    (connect_int_node_with_old_dep : bool) : M unit :=
  λ p, match deps_of p next !! prev_idx with
       | None => (inl (out_of_range "add_intermediate: invalid dependency index"%string), p)
       | Some prev =>
           let p1 := if connect_int_node_with_old_dep
                     then add_connection prev node p else p in
           let p2 := update_node prev (set_users (remove_all next)) p1 in
           let p3 := update_node next (set_dependencies (λ ds, <[prev_idx := node]> ds)) p2 in
           (inr tt, update_node node (set_users (push_back next)) p3)
       end.

(** The default argument of the declaration at header line 166. *)
Definition connect_int_node_with_old_dep_default : bool := true.

Section primitive_overload.
(** The inline overload (header lines 170-173) calls two functions whose
    bodies are not part of the header; it is embedded over any pair of
    implementations of them. *)
Variable get_or_create_impl : primitive → M node_ptr.
Variable add_intermediate_impl : node_ptr → node_ptr → nat → bool → M unit.

(** [add_intermediate(get_or_create(prim), next, prev_idx);] *)
Definition add_intermediate_overload (prim : primitive) (next : node_ptr)
    (prev_idx : nat) : M unit :=
  let* node := get_or_create_impl prim in
  add_intermediate_impl node next prev_idx connect_int_node_with_old_dep_default.

(** The same in two explicit steps: first [get_or_create], then, when it
    returned, the four-argument [add_intermediate] on the node it returned,
    the last argument being [true]. *)
Definition get_or_create_then_add_intermediate (prim : primitive) (next : node_ptr)
    (prev_idx : nat) (p : program_impl) : (exn + unit) * program_impl :=
  match get_or_create_impl prim p with
  | (inr node, p1) => add_intermediate_impl node next prev_idx true p1
  | (inl e, p1) => (inl e, p1)
  end.
End primitive_overload.

(** The overload of this program. *)
Definition add_intermediate_prim : primitive → node_ptr → nat → M unit :=
  add_intermediate_overload get_or_create add_intermediate.

(** ** Removing nodes *)

Definition is_output (p : program_impl) (q : node_ptr) : bool :=
  match heap p !! q with Some n => output n | None => false end.

(** A node is marked as an input when it is in the [inputs] list. *)
Definition is_input (p : program_impl) (q : node_ptr) : bool :=
  bool_decide (q ∈ inputs p).

(** Destruction of a node object: its [shared_ptr] leaves [nodes_map] (keyed
    by the node's identifier), the pointer leaves the program's lists and the
    identifier is recorded in [optimized_out]. *)
Definition erase_node (q : node_ptr) (p : program_impl) : program_impl :=
  match heap p !! q with
  | Some n =>
      mk_program (delete q (heap p)) (remove_all q (inputs p)) (remove_all q (outputs p))
                 (remove_all q (processing_order p)) (delete (id n) (nodes_map p))
                 (optimized_out p ++ [id n])
  | None => p
  end.

(** Disconnects [node] from each of the dependencies in [ds]. *)
Definition detach_dependencies (node : node_ptr) (ds : list node_ptr)
    (p : program_impl) : program_impl :=
  foldl (λ acc d, remove_connection d node acc) p ds.

(** Modelled from the spec: the body of [remove_if_dangling] (declared at
    header line 198).  A node with a user, or marked as an output or an input,
    is kept and the answer is [false].  Otherwise the node is disconnected
    from its dependencies and erased, and the answer is [true]; with
    [detach_whole_branch] the same test is then applied, recursively, to each
    former dependency that is still in the store ([detach_step]).  [fuel]
    bounds the depth of the recursion; [None] means it ran out. *)
Definition detach_step (rec : node_ptr → program_impl → option (bool * program_impl))
    (acc : option (bool * program_impl)) (d : node_ptr) : option (bool * program_impl) :=
  match acc with
  | Some (b, q) =>
      if bool_decide (live q d)
      then match rec d q with
           | Some (_, q') => Some (b, q')
           | None => None
           end
      else Some (b, q)
  | None => None
  end.

Fixpoint remove_if_dangling_fuel (fuel : nat) (node : node_ptr)
    (detach_whole_branch : bool) (p : program_impl) : option (bool * program_impl) :=
  match fuel with
  | 0 => None
  | S fuel' =>
      if bool_decide (users_of p node ≠ []) || is_output p node || is_input p node
      then Some (false, p)
      else
        let former := deps_of p node in
        let p1 := erase_node node (detach_dependencies node former p) in
        if detach_whole_branch then
          foldl (detach_step (λ d q, remove_if_dangling_fuel fuel' d true q))
                (Some (true, p1)) former
        else Some (true, p1)
  end.

(** Every level of the recursion erases a node first, so one more than the
    number of stored nodes is enough fuel. *)
Definition remove_if_dangling (node : node_ptr) (detach_whole_branch : bool)
    (p : program_impl) : option (bool * program_impl) :=
  remove_if_dangling_fuel (S (size (heap p))) node detach_whole_branch p.

(** [nodes_map] is keyed by the identifier of the node it owns. *)
Definition registry_wf (p : program_impl) : Prop :=
  ∀ k q, nodes_map p !! k = Some q → ∃ n, heap p !! q = Some n ∧ id n = k.

Definition registry_check (p : program_impl) : bool :=
  bool_decide (map_Forall (λ k q, id <$> heap p !! q = Some k) (nodes_map p)).

(** Nothing is added between [p] and [p']: lists, live nodes and registry
    entries of [p'] all come from [p]. *)
Definition shrinks (p p' : program_impl) : Prop :=
  (∀ a, deps_of p' a ⊆ deps_of p a) ∧
  (∀ a, users_of p' a ⊆ users_of p a) ∧
  (∀ a, live p' a → live p a) ∧
  (∀ k q, nodes_map p' !! k = Some q → nodes_map p !! k = Some q).

(** [node] is gone: no object, no registry entry, no edge mentioning it. *)
Definition no_trace (p : program_impl) (node : node_ptr) : Prop :=
  heap p !! node = None ∧
  (∀ k, nodes_map p !! k ≠ Some node) ∧
  (∀ a, node ∉ deps_of p a) ∧
  (∀ a, node ∉ users_of p a).

(** A second program: A feeds B (the output) and C; C feeds D; D has no user
    and is not an output, so the branch D, C is dangling. *)
Definition branch_heap : gmap node_ptr program_node :=
  <[1%positive := plain_node "A" [] [2; 3]%positive false]>
  (<[2%positive := plain_node "B" [1%positive] [] true]>
  (<[3%positive := plain_node "C" [1%positive] [4%positive] false]>
  (<[4%positive := plain_node "D" [3%positive] [] false]> ∅))).

Definition branch_nodes_map : gmap primitive_id node_ptr :=
  <["A"%string := 1%positive]> (<["B"%string := 2%positive]>
  (<["C"%string := 3%positive]> (<["D"%string := 4%positive]> ∅))).

Definition branch : program_impl :=
  mk_program branch_heap [1%positive] [2%positive] [1; 2; 3; 4]%positive branch_nodes_map [].

(** ** Extracting a node with a single dependency *)

(** In a dependency vector, [input] takes every position held by [node]. *)
Definition replace_ptr (node input : node_ptr) (l : list node_ptr) : list node_ptr :=
  (λ x, if decide (x = node) then input else x) <$> l.

(** The former user [u] of [node] now reads [input] instead, and [input]
    lists [u] as a user. *)
Definition splice_user (node input u : node_ptr) (p : program_impl) : program_impl :=
  update_node input (set_users (push_back u))
    (update_node u (set_dependencies (replace_ptr node input)) p).

(** Modelled from the spec: the body of [extract_and_remove] (declared at
    header line 203; the comment above it gives the prerequisite).  A node
    marked as an output, or whose number of dependencies is not one, is left
    alone and the answer is [false].  Otherwise the node is disconnected from
    its dependency, each of its users is spliced to that dependency, the node
    is erased and the answer is [true]. *)
Definition extract_and_remove (node : node_ptr) (p : program_impl) : bool * program_impl :=
  if is_output p node then (false, p)
  else match deps_of p node with
       | [input] =>
           let former_users := users_of p node in
           let p1 := remove_connection input node p in
           let p2 := foldl (λ acc u, splice_user node input u acc) p1 former_users in
           (true, erase_node node p2)
       | _ => (false, p)
       end.

(** ** Processing order *)

Definition with_processing_order (order : list node_ptr) (p : program_impl) : program_impl :=
  mk_program (heap p) (inputs p) (outputs p) order (nodes_map p) (optimized_out p).

(** The stored nodes by ascending address.  [get_or_create] hands out
    increasing addresses, so this is the order in which the nodes were
    declared. *)
Definition declared_nodes (p : program_impl) : list node_ptr :=
  merge_sort Pos.le (elements (dom (heap p))).

(** A node can be scheduled once all its dependencies are. *)
Definition ready (p : program_impl) (placed : list node_ptr) (q : node_ptr) : Prop :=
  Forall (λ d, d ∈ placed) (deps_of p q).

(** [n] rounds; each one schedules the first pending node, in declaration
    order, that is ready, and gives up when no pending node is. *)
Fixpoint schedule (n : nat) (p : program_impl) (placed pending : list node_ptr)
    : option (list node_ptr) :=
  match n with
  | 0 => Some placed
  | S n' =>
      match list_find (ready p placed) pending with
      | Some (i, q) => schedule n' p (placed ++ [q]) (delete i pending)
      | None => None
      end
  end.

(** Modelled from the spec: the body of [calc_processing_order] (declared at
    header line 115).  It builds a linear order consistent with the
    dependency relation, one round per stored node, ties going to the node
    declared first; a round with no ready node means a dependency cycle, a
    fatal structural error that leaves no order behind. *)
Definition calc_processing_order : M unit :=
  λ p, let nodes := declared_nodes p in
       match schedule (length nodes) p [] nodes with
       | Some order => (inr tt, with_processing_order order p)
       | None => (inl (runtime_error "calc_processing_order: dependency cycle"%string), p)
       end.

(** [a] depends on [b]. *)
Definition depends (p : program_impl) (a b : node_ptr) : Prop := b ∈ deps_of p a.

Definition cyclic (p : program_impl) : Prop := ∃ a, tc (depends p) a a.

(** Every dependency pointer designates a stored node. *)
Definition deps_closed (p : program_impl) : Prop :=
  ∀ a d, d ∈ deps_of p a → live p d.

(** Each element of [order] comes after all of its dependencies. *)
Definition after_dependencies (p : program_impl) (order : list node_ptr) : Prop :=
  ∀ i q, order !! i = Some q →
    ∀ d, d ∈ deps_of p q → ∃ j, j < i ∧ order !! j = Some d.

(** [order] lists every stored node once, each after its dependencies. *)
Definition topological_order (p : program_impl) (order : list node_ptr) : Prop :=
  NoDup order ∧ (∀ q, q ∈ order ↔ live p q) ∧ after_dependencies p order.

Definition deps_closed_check (p : program_impl) : bool :=
  bool_decide (map_Forall (λ _ n,
      Forall (λ d, is_Some (heap p !! d)) (dependencies n)) (heap p)).

(** A program with a dependency cycle: B reads A and C, and C reads B. *)
Definition looped : program_impl :=
  mk_program
    (<[1%positive := plain_node "A" [] [2%positive] false]>
    (<[2%positive := plain_node "B" [1; 3]%positive [3%positive] false]>
    (<[3%positive := plain_node "C" [2%positive] [2%positive] true]> ∅)))
    [1%positive] [3%positive] []
    (<["A"%string := 1%positive]> (<["B"%string := 2%positive]>
      (<["C"%string := 3%positive]> ∅))) [].

(** What [schedule] maintains between rounds. *)
Definition schedule_inv (p : program_impl) (placed pending : list node_ptr) : Prop :=
  NoDup (placed ++ pending) ∧
  (∀ q, q ∈ placed ++ pending ↔ live p q) ∧
  after_dependencies p placed.

(** ** Memory dependencies *)

Definition set_memory_dependencies (f : gset primitive_id → gset primitive_id)
    (n : program_node) : program_node :=
  mk_node (id n) (dependencies n) (users n) (output n) (constant n)
          (data_flow n) (f (memory_dependencies n)).

Definition id_of (p : program_impl) (q : node_ptr) : option primitive_id :=
  id <$> heap p !! q.

Definition memory_dependencies_of (p : program_impl) (q : node_ptr) : gset primitive_id :=
  match heap p !! q with Some n => memory_dependencies n | None => ∅ end.

(** One entry of the memory dependency graph: the identifier of [b] joins the
    must-not-alias set kept at [a]. *)
Definition add_memory_dependency (a b : node_ptr) (p : program_impl) : program_impl :=
  match id_of p b with
  | Some k => update_node a (set_memory_dependencies (λ s, s ∪ {[k]})) p
  | None => p
  end.

(** A policy pass: every ordered pair of distinct nodes of the processing
    order that the policy declares in conflict gets its entry.  Entries are
    only ever added. *)
Definition add_conflicts_from (conflict : node_ptr → node_ptr → bool) (a : node_ptr)
    (bs : list node_ptr) (p : program_impl) : program_impl :=
  foldl (λ acc b,
           if bool_decide (a ≠ b) && conflict a b
           then add_memory_dependency a b acc else acc)
        p bs.

Definition add_conflicts (conflict : node_ptr → node_ptr → bool)
    (p : program_impl) : program_impl :=
  foldl (λ acc a, add_conflicts_from conflict a (processing_order p) acc)
        p (processing_order p).

(** The entries a pass with policy [conflict] owes to node [a]. *)
Definition conflict_entry (conflict : node_ptr → node_ptr → bool) (p : program_impl)
    (a : node_ptr) (k : primitive_id) : Prop :=
  live p a ∧ a ∈ processing_order p ∧
  ∃ b, b ∈ processing_order p ∧ a ≠ b ∧ conflict a b = true ∧ id_of p b = Some k.

Definition position (p : program_impl) (q : node_ptr) : option nat :=
  fst <$> list_find (λ x, x = q) (processing_order p).

(** The live range of a node starts at its own position [pos] and ends at the
    position of its last user. *)
Definition last_use (p : program_impl) (q : node_ptr) (pos : nat) : nat :=
  foldr max pos (omap (position p) (users_of p q)).

Definition live_ranges_overlap (p : program_impl) (a b : node_ptr) : bool :=
  match position p a, position p b with
  | Some ia, Some ib =>
      bool_decide (ia ≤ last_use p b ib) && bool_decide (ib ≤ last_use p a ia)
  | _, _ => false
  end.

(** [target] is reached from [from] along at most [fuel] dependency edges
    (at least one). *)
Fixpoint reaches (fuel : nat) (p : program_impl) (from target : node_ptr) : bool :=
  match fuel with
  | 0 => false
  | S fuel' =>
      existsb (λ d, bool_decide (d = target) || reaches fuel' p d target) (deps_of p from)
  end.

(** [a] is an ancestor of [b]: [b] depends on [a], directly or not.  A path
    without repetition has fewer edges than there are stored nodes. *)
Definition is_ancestor (p : program_impl) (a b : node_ptr) : bool :=
  reaches (size (heap p)) p b a.

Definition unrelated (p : program_impl) (a b : node_ptr) : bool :=
  negb (is_ancestor p a b) && negb (is_ancestor p b a).

Definition carries_marker (marked : list node_ptr) (a b : node_ptr) : bool :=
  bool_decide (a ∈ marked) || bool_decide (b ∈ marked).

(** Modelled from the spec: the body of [basic_memory_dependencies] (declared
    at header line 151).  Two nodes conflict when their live ranges in the
    processing order overlap. *)
Definition basic_memory_dependencies (p : program_impl) : program_impl :=
  add_conflicts (live_ranges_overlap p) p.

(** Modelled from the spec: the body of [skipped_branch_memory_dependencies]
    (declared at header line 152).  The nodes that were reachable from a
    removed branch before optimization keep a conflict marker; which nodes
    those are is not recorded in the program state, so they are the argument
    [marked].  A marked node is kept apart from every other node, ambiguous
    cases resolving to a conflict. *)
Definition skipped_branch_memory_dependencies (marked : list node_ptr)
    (p : program_impl) : program_impl :=
  add_conflicts (carries_marker marked) p.

(** Modelled from the spec: the body of [oooq_memory_dependencies] (declared
    at header line 153).  Two nodes neither of which is an ancestor of the
    other may run concurrently, so they conflict. *)
Definition oooq_memory_dependencies (p : program_impl) : program_impl :=
  add_conflicts (unrelated p) p.

(** The graph is derived data, computed afresh at each run. *)
Definition clear_memory_dependencies (p : program_impl) : program_impl :=
  with_heap (set_memory_dependencies (λ _, ∅) <$> heap p) p.

(** Modelled from the spec: the body of [prepare_memory_dependencies]
    (declared at header line 150): the three policies in the order in which
    the header declares them, on a cleared graph. *)
Definition prepare_memory_dependencies (marked : list node_ptr)
    (p : program_impl) : program_impl :=
  oooq_memory_dependencies
    (skipped_branch_memory_dependencies marked
       (basic_memory_dependencies (clear_memory_dependencies p))).

(** [a] conflicts with [b]: the identifier of [b] is in the set kept at [a]. *)
Definition conflicts (p : program_impl) (a b : node_ptr) : Prop :=
  ∃ k, id_of p b = Some k ∧ k ∈ memory_dependencies_of p a.

(** Distinct stored nodes carry distinct identifiers. *)
Definition unique_ids (p : program_impl) : Prop :=
  ∀ a b k, id_of p a = Some k → id_of p b = Some k → a = b.

Definition unique_ids_check (p : program_impl) : bool :=
  bool_decide (NoDup ((λ kv, id kv.2) <$> map_to_list (heap p))).

Definition ordered_sample : program_impl := with_processing_order [1; 2; 3]%positive sample.

(** A chain of dependency edges from [a] to [b] through the nodes of [l]. *)
Fixpoint is_path (p : program_impl) (a : node_ptr) (l : list node_ptr) (b : node_ptr) : Prop :=
  match l with
  | [] => depends p a b
  | x :: l' => depends p a x ∧ is_path p x l' b
  end.

(** Solves equalities between stores built by the two primitives: key by
    key, then field by field. *)
Ltac heap_equal :=
  apply map_eq; intros ?x; rewrite ?lookup_alter;
  repeat case_decide; simplify_eq;
  try match goal with
      | |- context [heap ?p !! ?x] => destruct (heap p !! x) as [[]|]
      end;
  simpl; try done; unfold set_dependencies, set_users, push_back; simpl.

(** * Properties *)

(** ** Reading a node after an update *)

Lemma live_update_node p q f a : live (update_node q f p) a ↔ live p a.
Proof.
  unfold live, update_node; simpl. rewrite lookup_alter.
  case_decide; subst; [apply fmap_is_Some | done].
Qed.

Lemma deps_of_set_users p q f a :
  deps_of (update_node q (set_users f) p) a = deps_of p a.
Proof.
  unfold deps_of, update_node; simpl. rewrite lookup_alter.
  case_decide; subst; [by destruct (heap p !! a) | done].
Qed.

Lemma users_of_set_dependencies p q f a :
  users_of (update_node q (set_dependencies f) p) a = users_of p a.
Proof.
  unfold users_of, update_node; simpl. rewrite lookup_alter.
  case_decide; subst; [by destruct (heap p !! a) | done].
Qed.

Lemma users_of_set_users p q f a :
  f [] = [] ∨ live p q →
  users_of (update_node q (set_users f) p) a =
    if decide (q = a) then f (users_of p a) else users_of p a.
Proof.
  intros Hf. unfold users_of, update_node; simpl. rewrite lookup_alter.
  case_decide; subst; [|done].
  destruct Hf as [Hf|[n Hn]]; [|by rewrite Hn].
  by destruct (heap p !! a).
Qed.

Lemma users_of_set_users_ne p q f a :
  q ≠ a → users_of (update_node q (set_users f) p) a = users_of p a.
Proof.
  intros Hne. unfold users_of, update_node; simpl.
  by rewrite lookup_alter, decide_False.
Qed.

Lemma deps_of_set_dependencies p q f a :
  f [] = [] ∨ live p q →
  deps_of (update_node q (set_dependencies f) p) a =
    if decide (q = a) then f (deps_of p a) else deps_of p a.
Proof.
  intros Hf. unfold deps_of, update_node; simpl. rewrite lookup_alter.
  case_decide; subst; [|done].
  destruct Hf as [Hf|[n Hn]]; [|by rewrite Hn].
  by destruct (heap p !! a).
Qed.

(** ** What the two edge primitives do to every list *)

Lemma deps_of_add_connection p prev next a :
  live p next →
  deps_of (add_connection prev next p) a =
    if decide (next = a) then deps_of p a ++ [prev] else deps_of p a.
Proof.
  intros Hn. unfold add_connection.
  rewrite deps_of_set_dependencies by (right; by apply live_update_node).
  by rewrite deps_of_set_users.
Qed.

Lemma users_of_add_connection p prev next a :
  live p prev →
  users_of (add_connection prev next p) a =
    if decide (prev = a) then users_of p a ++ [next] else users_of p a.
Proof.
  intros Hp. unfold add_connection.
  rewrite users_of_set_dependencies.
  by rewrite users_of_set_users by (by right).
Qed.

Lemma deps_of_remove_connection p prev next a :
  deps_of (remove_connection prev next p) a =
    if decide (next = a) then remove_all prev (deps_of p a) else deps_of p a.
Proof.
  unfold remove_connection.
  rewrite deps_of_set_dependencies by (by left).
  by rewrite deps_of_set_users.
Qed.

Lemma users_of_remove_connection p prev next a :
  users_of (remove_connection prev next p) a =
    if decide (prev = a) then remove_all next (users_of p a) else users_of p a.
Proof.
  unfold remove_connection.
  rewrite users_of_set_dependencies.
  by rewrite users_of_set_users by (by left).
Qed.

Lemma elem_of_remove_all v x l : x ∈ remove_all v l ↔ x ≠ v ∧ x ∈ l.
Proof. unfold remove_all. by rewrite list_elem_of_filter. Qed.

Lemma count_occ_ptr_app v l1 l2 :
  count_occ_ptr v (l1 ++ l2) = count_occ_ptr v l1 + count_occ_ptr v l2.
Proof. unfold count_occ_ptr. by rewrite filter_app, length_app. Qed.

Lemma count_occ_ptr_singleton v w :
  count_occ_ptr v [w] = if decide (w = v) then 1 else 0.
Proof. unfold count_occ_ptr. rewrite filter_cons, filter_nil. by case_decide. Qed.

Lemma count_occ_ptr_cons v x l :
  count_occ_ptr v (x :: l) =
    (if decide (x = v) then 1 else 0) + count_occ_ptr v l.
Proof.
  change (x :: l) with ([x] ++ l).
  by rewrite count_occ_ptr_app, count_occ_ptr_singleton.
Qed.

Lemma count_occ_ptr_remove_all v w l :
  count_occ_ptr v (remove_all w l) = if decide (v = w) then 0 else count_occ_ptr v l.
Proof.
  induction l as [|x l IH].
  - by case_decide.
  - unfold remove_all in *. rewrite filter_cons.
    destruct (decide (x ≠ w)) as [Hx|Hx].
    + rewrite !count_occ_ptr_cons, IH.
      repeat case_decide; subst; done.
    + apply dec_stable in Hx. subst x. rewrite IH, count_occ_ptr_cons.
      repeat case_decide; subst; done.
Qed.

Lemma mirror_add_connection p prev next :
  live p prev → live p next → mirror p → mirror (add_connection prev next p).
Proof.
  intros Hp Hn Hm a b.
  rewrite deps_of_add_connection, users_of_add_connection by done.
  specialize (Hm a b). revert Hm.
  destruct (decide (next = a)) as [->|?], (decide (prev = b)) as [->|?];
    rewrite ?elem_of_app, ?list_elem_of_singleton; intuition congruence.
Qed.

Lemma mirror_remove_connection p prev next :
  mirror p → mirror (remove_connection prev next p).
Proof.
  intros Hm a b.
  rewrite deps_of_remove_connection, users_of_remove_connection.
  specialize (Hm a b). revert Hm.
  destruct (decide (next = a)) as [->|?], (decide (prev = b)) as [->|?];
    rewrite ?elem_of_remove_all; intuition congruence.
Qed.

(** ** The executable checks are sound *)

Lemma mirror_check_sound p : mirror_check p = true → mirror p.
Proof.
  unfold mirror_check. rewrite bool_decide_eq_true. intros Hall a b.
  unfold deps_of at 1, users_of at 1. split.
  - destruct (heap p !! a) as [n|] eqn:Ha; [|by intros ?%elem_of_nil].
    intros Hb. destruct (Hall a n Ha) as [Hd _].
    rewrite Forall_forall in Hd. by apply Hd.
  - destruct (heap p !! b) as [n|] eqn:Hb; [|by intros ?%elem_of_nil].
    intros Ha. destruct (Hall b n Hb) as [_ Hu].
    rewrite Forall_forall in Hu. by apply Hu.
Qed.

Lemma count_occ_ptr_not_elem v l : v ∉ l → count_occ_ptr v l = 0.
Proof.
  induction l as [|x l IH]; [done|].
  rewrite not_elem_of_cons, count_occ_ptr_cons. intros [Hne Hl].
  rewrite decide_False by done. by rewrite IH.
Qed.

Lemma mirror_multiset_check_sound p : mirror_multiset_check p = true → mirror_multiset p.
Proof.
  unfold mirror_multiset_check. rewrite bool_decide_eq_true. intros Hall a b.
  destruct (decide (b ∈ deps_of p a)) as [Hb|Hb].
  - unfold deps_of in Hb. destruct (heap p !! a) as [n|] eqn:Ha; [|by apply elem_of_nil in Hb].
    destruct (Hall a n Ha) as [Hd _]. rewrite Forall_forall in Hd. by apply Hd.
  - destruct (decide (a ∈ users_of p b)) as [Ha|Ha].
    + unfold users_of in Ha. destruct (heap p !! b) as [n|] eqn:Hn; [|by apply elem_of_nil in Ha].
      destruct (Hall b n Hn) as [_ Hu]. rewrite Forall_forall in Hu. by apply Hu.
    + by rewrite !count_occ_ptr_not_elem.
Qed.

Example sample_mirror : mirror sample ∧ mirror_multiset sample.
Proof.
  split; [apply mirror_check_sound | apply mirror_multiset_check_sound];
    vm_compute; reflexivity.
Qed.

(** ** The edge primitives and the mirror invariant *)

(** C1.  For live nodes [prev] and [next] (distinct or not),
    [add_connection prev next] puts [prev] into [next]'s dependency list and
    [next] into [prev]'s user list, [remove_connection prev next] leaves no
    [prev] in [next]'s dependency list and no [next] in [prev]'s user list,
    and each of the two operations preserves the mirror invariant. *)
Theorem connection_keeps_mirror (p : program_impl) (prev next : node_ptr) :
  live p prev → live p next →
  (prev ∈ deps_of (add_connection prev next p) next ∧
   next ∈ users_of (add_connection prev next p) prev) ∧
  ((prev ∉ deps_of (remove_connection prev next p) next) ∧
   (next ∉ users_of (remove_connection prev next p) prev)) ∧
  (mirror p → mirror (add_connection prev next p)) ∧
  (mirror p → mirror (remove_connection prev next p)).
Proof.
  intros Hp Hn. split; [split|split; [split|split]].
  - rewrite deps_of_add_connection, decide_True by done.
    apply elem_of_app. right. by apply list_elem_of_singleton.
  - rewrite users_of_add_connection, decide_True by done.
    apply elem_of_app. right. by apply list_elem_of_singleton.
  - rewrite deps_of_remove_connection, decide_True by done.
    rewrite elem_of_remove_all. by intros [? _].
  - rewrite users_of_remove_connection, decide_True by done.
    rewrite elem_of_remove_all. by intros [? _].
  - by apply mirror_add_connection.
  - by apply mirror_remove_connection.
Qed.

Lemma connection_keeps_mirror_witness :
  (2%positive ∈ deps_of (add_connection 2 3 sample) 3 ∧
   3%positive ∈ users_of (add_connection 2 3 sample) 2) ∧
  ((2%positive ∉ deps_of (remove_connection 2 3 sample) 3) ∧
   (3%positive ∉ users_of (remove_connection 2 3 sample) 2)) ∧
  (mirror sample → mirror (add_connection 2 3 sample)) ∧
  (mirror sample → mirror (remove_connection 2 3 sample)).
Proof.
  apply (connection_keeps_mirror sample 2 3); vm_compute; eauto.
Defined.

(** C8.  [add_connection] does not deduplicate: two calls for the same pair
    raise the number of occurrences by two on both sides; one
    [remove_connection] leaves no occurrence on either side; and both
    operations keep the dependency-side edge multiset equal to the user-side
    one. *)
Theorem connection_multiset (p : program_impl) (prev next : node_ptr) :
  live p prev → live p next →
  (count_occ_ptr prev (deps_of (add_connection prev next (add_connection prev next p)) next)
     = count_occ_ptr prev (deps_of p next) + 2 ∧
   count_occ_ptr next (users_of (add_connection prev next (add_connection prev next p)) prev)
     = count_occ_ptr next (users_of p prev) + 2) ∧
  (count_occ_ptr prev
     (deps_of (remove_connection prev next
                 (add_connection prev next (add_connection prev next p))) next) = 0 ∧
   count_occ_ptr next
     (users_of (remove_connection prev next
                 (add_connection prev next (add_connection prev next p))) prev) = 0) ∧
  (mirror_multiset p → mirror_multiset (add_connection prev next p)) ∧
  (mirror_multiset p → mirror_multiset (remove_connection prev next p)).
Proof.
  intros Hp Hn.
  assert (Hp1 : live (add_connection prev next p) prev).
  { unfold add_connection. by rewrite !live_update_node. }
  assert (Hn1 : live (add_connection prev next p) next).
  { unfold add_connection. by rewrite !live_update_node. }
  split; [|split; [|split]].
  - rewrite !deps_of_add_connection, !users_of_add_connection by done.
    rewrite !decide_True by done.
    rewrite !count_occ_ptr_app, !count_occ_ptr_singleton, !decide_True by done.
    lia.
  - rewrite deps_of_remove_connection, users_of_remove_connection.
    rewrite !decide_True by done.
    by rewrite !count_occ_ptr_remove_all, !decide_True.
  - intros Hm a b.
    rewrite deps_of_add_connection, users_of_add_connection by done.
    specialize (Hm a b).
    destruct (decide (next = a)) as [->|?], (decide (prev = b)) as [->|?];
      rewrite ?count_occ_ptr_app, ?count_occ_ptr_singleton;
      repeat case_decide; try congruence; lia.
  - intros Hm a b.
    rewrite deps_of_remove_connection, users_of_remove_connection.
    specialize (Hm a b).
    destruct (decide (next = a)) as [->|?], (decide (prev = b)) as [->|?];
      rewrite ?count_occ_ptr_remove_all;
      repeat case_decide; try congruence; lia.
Qed.

Lemma connection_multiset_witness :
  (count_occ_ptr 1 (deps_of (add_connection 1 2 (add_connection 1 2 sample)) 2)
     = count_occ_ptr 1 (deps_of sample 2) + 2 ∧
   count_occ_ptr 2 (users_of (add_connection 1 2 (add_connection 1 2 sample)) 1)
     = count_occ_ptr 2 (users_of sample 1) + 2) ∧
  (count_occ_ptr 1
     (deps_of (remove_connection 1 2
                 (add_connection 1 2 (add_connection 1 2 sample))) 2) = 0 ∧
   count_occ_ptr 2
     (users_of (remove_connection 1 2
                 (add_connection 1 2 (add_connection 1 2 sample))) 1) = 0) ∧
  (mirror_multiset sample → mirror_multiset (add_connection 1 2 sample)) ∧
  (mirror_multiset sample → mirror_multiset (remove_connection 1 2 sample)).
Proof.
  apply (connection_multiset sample 1 2); vm_compute; eauto.
Defined.

(** The edge already present in [sample] really is duplicated by a second
    [add_connection], and one [remove_connection] clears all copies. *)
Example add_twice_then_remove :
  deps_of (add_connection 1 2 sample) 2 = [1; 1]%positive ∧
  users_of (add_connection 1 2 sample) 1 = [2; 3; 2]%positive ∧
  deps_of (remove_connection 1 2 (add_connection 1 2 sample)) 2 = [] ∧
  users_of (remove_connection 1 2 (add_connection 1 2 sample)) 1 = [3%positive].
Proof. vm_compute. done. Qed.

(** C9.  [add_connection prev next] appends: [next] becomes the last user of
    [prev] and [prev] the last dependency of [next], behind the earlier
    entries, which keep their positions; no other dependency or user list
    changes, and neither does the rest of the program state. *)
Theorem add_connection_appends (p : program_impl) (prev next : node_ptr) :
  live p prev → live p next →
  users_of (add_connection prev next p) prev = users_of p prev ++ [next] ∧
  deps_of (add_connection prev next p) next = deps_of p next ++ [prev] ∧
  last (users_of (add_connection prev next p) prev) = Some next ∧
  last (deps_of (add_connection prev next p) next) = Some prev ∧
  (∀ i d, deps_of p next !! i = Some d →
          deps_of (add_connection prev next p) next !! i = Some d) ∧
  (∀ a, a ≠ next → deps_of (add_connection prev next p) a = deps_of p a) ∧
  (∀ a, a ≠ prev → users_of (add_connection prev next p) a = users_of p a) ∧
  (inputs (add_connection prev next p), outputs (add_connection prev next p),
   processing_order (add_connection prev next p), nodes_map (add_connection prev next p),
   optimized_out (add_connection prev next p))
  = (inputs p, outputs p, processing_order p, nodes_map p, optimized_out p).
Proof.
  intros Hp Hn.
  assert (Hu : users_of (add_connection prev next p) prev = users_of p prev ++ [next]).
  { by rewrite users_of_add_connection, decide_True. }
  assert (Hd : deps_of (add_connection prev next p) next = deps_of p next ++ [prev]).
  { by rewrite deps_of_add_connection, decide_True. }
  rewrite Hu, Hd, !last_snoc.
  split_and!; try done.
  - intros i d Hi. by apply lookup_app_l_Some.
  - intros a Ha. by rewrite deps_of_add_connection, decide_False.
  - intros a Ha. by rewrite users_of_add_connection, decide_False.
Qed.

Lemma add_connection_appends_witness :
  users_of (add_connection 2 3 sample) 2 = users_of sample 2 ++ [3%positive] ∧
  deps_of (add_connection 2 3 sample) 3 = deps_of sample 3 ++ [2%positive] ∧
  last (users_of (add_connection 2 3 sample) 2) = Some 3%positive ∧
  last (deps_of (add_connection 2 3 sample) 3) = Some 2%positive ∧
  (∀ i d, deps_of sample 3 !! i = Some d →
          deps_of (add_connection 2 3 sample) 3 !! i = Some d) ∧
  (∀ a, a ≠ 3%positive → deps_of (add_connection 2 3 sample) a = deps_of sample a) ∧
  (∀ a, a ≠ 2%positive → users_of (add_connection 2 3 sample) a = users_of sample a) ∧
  (inputs (add_connection 2 3 sample), outputs (add_connection 2 3 sample),
   processing_order (add_connection 2 3 sample), nodes_map (add_connection 2 3 sample),
   optimized_out (add_connection 2 3 sample))
  = (inputs sample, outputs sample, processing_order sample, nodes_map sample,
     optimized_out sample).
Proof.
  apply (add_connection_appends sample 2 3); vm_compute; eauto.
Defined.

(** ** Lookup of a missing identifier *)

(** C6.  When [k] is not a key of [nodes_map], both overloads of [get_node]
    fail with the runtime error naming [k], and the program state after the
    failed lookup is the state before it. *)
Theorem get_node_not_found (p : program_impl) (k : primitive_id) :
  nodes_map p !! k = None →
  get_node k p = (inl (runtime_error (not_found_message k)), p) ∧
  get_node_const k p = inl (runtime_error (not_found_message k)) ∧
  has_node k p = false.
Proof.
  intros Hk. unfold get_node, get_node_const, has_node, try_catch, throw, map_at.
  rewrite Hk. split; [reflexivity|split; [reflexivity|]].
  apply bool_decide_eq_false. by intros [? ?].
Qed.

Lemma get_node_not_found_witness :
  get_node "Z" sample
    = (inl (runtime_error "Program doesn't contain primtive node: Z"), sample) ∧
  get_node_const "Z" sample
    = inl (runtime_error "Program doesn't contain primtive node: Z") ∧
  has_node "Z" sample = false.
Proof.
  apply (get_node_not_found sample "Z"). vm_compute. reflexivity.
Defined.

Example get_node_found :
  get_node "B" sample = (inr 2%positive, sample) ∧ get_node_const "B" sample = inr 2%positive.
Proof. split; vm_compute; reflexivity. Qed.

(** ** Inserting an intermediate node *)

(** C10.  Whatever the bodies of [get_or_create] and of the four-argument
    [add_intermediate] are, the primitive overload yields the same result and
    the same program state as calling [get_or_create] first and then
    [add_intermediate] on the returned node with the last argument [true]. *)
Theorem add_intermediate_overload_equiv
    (get_or_create_impl : primitive → M node_ptr)
    (add_intermediate_impl : node_ptr → node_ptr → nat → bool → M unit)
    (prim : primitive) (next : node_ptr) (prev_idx : nat) (p : program_impl) :
  add_intermediate_overload get_or_create_impl add_intermediate_impl prim next prev_idx p
  = get_or_create_then_add_intermediate get_or_create_impl add_intermediate_impl
      prim next prev_idx p
  ∧ add_intermediate_prim prim next prev_idx p
  = get_or_create_then_add_intermediate get_or_create add_intermediate prim next prev_idx p.
Proof.
  unfold add_intermediate_prim, add_intermediate_overload,
    get_or_create_then_add_intermediate, bind, connect_int_node_with_old_dep_default.
  split.
  - by destruct (get_or_create_impl prim p) as [[e|node] p1].
  - by destruct (get_or_create prim p) as [[e|node] p1].
Qed.

(** C7.  With [prev_idx] at or beyond the number of dependencies of [next],
    [add_intermediate] raises an error and the program state, hence every
    dependency and user list, is what it was before the call. *)
Theorem add_intermediate_out_of_range (p : program_impl) (node next : node_ptr)
    (prev_idx : nat) (connect : bool) :
  length (deps_of p next) ≤ prev_idx →
  (∃ e, (add_intermediate node next prev_idx connect p).1 = inl e) ∧
  (add_intermediate node next prev_idx connect p).2 = p ∧
  (∀ a, deps_of (add_intermediate node next prev_idx connect p).2 a = deps_of p a ∧
        users_of (add_intermediate node next prev_idx connect p).2 a = users_of p a).
Proof.
  intros Hlen. unfold add_intermediate.
  rewrite (lookup_ge_None_2 _ _ Hlen). simpl. eauto.
Qed.

Lemma add_intermediate_out_of_range_witness :
  (∃ e, (add_intermediate 3 2 1 true sample).1 = inl e) ∧
  (add_intermediate 3 2 1 true sample).2 = sample ∧
  (∀ a, deps_of (add_intermediate 3 2 1 true sample).2 a = deps_of sample a ∧
        users_of (add_intermediate 3 2 1 true sample).2 a = users_of sample a).
Proof.
  apply (add_intermediate_out_of_range sample 3 2 1 true). vm_compute. lia.
Defined.

(** With a valid index the call succeeds and rewires the edge: a new node D
    is put between A and B. *)
Example add_intermediate_in_range :
  let r := add_intermediate_prim (mk_primitive "D" "reorder" []) 2 0 sample in
  r.1 = inr tt ∧
  deps_of r.2 2 = [4%positive] ∧ deps_of r.2 4 = [1%positive] ∧
  users_of r.2 1 = [3; 4]%positive ∧ users_of r.2 4 = [2%positive] ∧
  mirror_check r.2 = true.
Proof. vm_compute. done. Qed.

(** ** Removal: what erasing and detaching do to the store *)

Lemma size_heap_update_node p q f : size (heap (update_node q f p)) = size (heap p).
Proof.
  unfold update_node; simpl.
  rewrite <-!(size_dom (D:=gset positive)). by rewrite dom_alter_L.
Qed.

Lemma id_update_node p q f a :
  (∀ n, id (f n) = id n) →
  id <$> heap (update_node q f p) !! a = id <$> heap p !! a.
Proof.
  intros Hf. unfold update_node; simpl. rewrite lookup_alter.
  case_decide; subst; [|done]. destruct (heap p !! a); simpl; [by rewrite Hf|done].
Qed.

Lemma output_update_node p q f a :
  (∀ n, output (f n) = output n) →
  is_output (update_node q f p) a = is_output p a.
Proof.
  intros Hf. unfold is_output, update_node; simpl. rewrite lookup_alter.
  case_decide; subst; [|done]. destruct (heap p !! a); simpl; [by rewrite Hf|done].
Qed.

Lemma live_remove_connection p prev next a :
  live (remove_connection prev next p) a ↔ live p a.
Proof. unfold remove_connection. by rewrite !live_update_node. Qed.

Lemma size_heap_remove_connection p prev next :
  size (heap (remove_connection prev next p)) = size (heap p).
Proof. unfold remove_connection. by rewrite !size_heap_update_node. Qed.

Lemma id_remove_connection p prev next a :
  id <$> heap (remove_connection prev next p) !! a = id <$> heap p !! a.
Proof. unfold remove_connection. by rewrite !id_update_node. Qed.

Lemma live_detach_dependencies node ds p a :
  live (detach_dependencies node ds p) a ↔ live p a.
Proof.
  revert p. induction ds as [|d ds IH]; intros p; simpl; [done|].
  unfold detach_dependencies in *. simpl. by rewrite IH, live_remove_connection.
Qed.

Lemma size_heap_detach_dependencies node ds p :
  size (heap (detach_dependencies node ds p)) = size (heap p).
Proof.
  revert p. induction ds as [|d ds IH]; intros p; simpl; [done|].
  unfold detach_dependencies in *. simpl. by rewrite IH, size_heap_remove_connection.
Qed.

Lemma id_detach_dependencies node ds p a :
  id <$> heap (detach_dependencies node ds p) !! a = id <$> heap p !! a.
Proof.
  revert p. induction ds as [|d ds IH]; intros p; simpl; [done|].
  unfold detach_dependencies in *. simpl. by rewrite IH, id_remove_connection.
Qed.

Lemma nodes_map_detach_dependencies node ds p :
  nodes_map (detach_dependencies node ds p) = nodes_map p.
Proof.
  revert p. induction ds as [|d ds IH]; intros p; simpl; [done|].
  unfold detach_dependencies in *. simpl. by rewrite IH.
Qed.

Lemma deps_of_detach_dependencies node ds p a :
  a ≠ node → deps_of (detach_dependencies node ds p) a = deps_of p a.
Proof.
  intros Ha. revert p. induction ds as [|d ds IH]; intros p; simpl; [done|].
  unfold detach_dependencies in *. simpl.
  by rewrite IH, deps_of_remove_connection, decide_False.
Qed.

Lemma remove_all_idemp v l : remove_all v (remove_all v l) = remove_all v l.
Proof.
  unfold remove_all. induction l as [|x l IH]; [done|].
  rewrite filter_cons. case_decide; [|done].
  rewrite filter_cons, decide_True by done. by rewrite IH.
Qed.

Lemma users_of_detach_dependencies node ds p a :
  users_of (detach_dependencies node ds p) a =
    if decide (a ∈ ds) then remove_all node (users_of p a) else users_of p a.
Proof.
  revert p. induction ds as [|d ds IH]; intros p.
  - destruct (decide (a ∈ [])) as [Hin|_]; [by apply elem_of_nil in Hin|done].
  - unfold detach_dependencies in *. simpl.
    rewrite IH, users_of_remove_connection.
    destruct (decide (a ∈ d :: ds)) as [Hin|Hin].
    + destruct (decide (d = a)) as [->|Hne].
      * case_decide; [by rewrite remove_all_idemp|done].
      * rewrite decide_True; [done|]. apply elem_of_cons in Hin as [?|?]; [congruence|done].
    + apply not_elem_of_cons in Hin as [Hne Hin].
      by rewrite (decide_False (P := a ∈ ds)), decide_False.
Qed.

Lemma heap_erase_node q p a :
  heap (erase_node q p) !! a = if decide (a = q) then None else heap p !! a.
Proof.
  unfold erase_node. destruct (heap p !! q) as [n|] eqn:Hq; simpl.
  - case_decide; subst; [apply lookup_delete_eq|by apply lookup_delete_ne].
  - case_decide; by subst.
Qed.

Lemma deps_of_erase_node q p a :
  deps_of (erase_node q p) a = if decide (a = q) then [] else deps_of p a.
Proof. unfold deps_of. rewrite heap_erase_node. by case_decide. Qed.

Lemma users_of_erase_node q p a :
  users_of (erase_node q p) a = if decide (a = q) then [] else users_of p a.
Proof. unfold users_of. rewrite heap_erase_node. by case_decide. Qed.

Lemma size_heap_erase_node q p :
  live p q → S (size (heap (erase_node q p))) = size (heap p).
Proof.
  intros [n Hn]. unfold erase_node. rewrite Hn. simpl.
  rewrite map_size_delete, Hn. simpl.
  assert (size (heap p) ≠ 0); [|lia].
  intros Hz. apply map_size_empty_inv in Hz. by rewrite Hz in Hn.
Qed.

Lemma nodes_map_erase_node q p k r :
  nodes_map (erase_node q p) !! k = Some r →
  nodes_map p !! k = Some r ∧ (id <$> heap p !! q ≠ Some k).
Proof.
  unfold erase_node. destruct (heap p !! q) as [n|] eqn:Hq; simpl.
  - rewrite lookup_delete. case_decide; [done|]. intros ?. split; [done|congruence].
  - by intros ?.
Qed.

(** ** Removal only ever takes things away *)

Lemma shrinks_refl p : shrinks p p.
Proof. by unfold shrinks. Qed.

Lemma shrinks_trans p1 p2 p3 : shrinks p1 p2 → shrinks p2 p3 → shrinks p1 p3.
Proof.
  intros (Hd1 & Hu1 & Hl1 & Hm1) (Hd2 & Hu2 & Hl2 & Hm2). split_and!.
  - intros a x Hx. by apply Hd1, Hd2.
  - intros a x Hx. by apply Hu1, Hu2.
  - intros a Ha. by apply Hl1, Hl2.
  - intros k q Hk. by apply Hm1, Hm2.
Qed.

Lemma shrinks_remove_connection p prev next : shrinks p (remove_connection prev next p).
Proof.
  split_and!.
  - intros a x. rewrite deps_of_remove_connection.
    case_decide; [|done]. rewrite elem_of_remove_all. by intros [_ ?].
  - intros a x. rewrite users_of_remove_connection.
    case_decide; [|done]. rewrite elem_of_remove_all. by intros [_ ?].
  - intros a. by rewrite live_remove_connection.
  - done.
Qed.

Lemma shrinks_detach_dependencies node ds p : shrinks p (detach_dependencies node ds p).
Proof.
  revert p. induction ds as [|d ds IH]; intros p; [apply shrinks_refl|].
  unfold detach_dependencies in *. simpl.
  eapply shrinks_trans; [apply shrinks_remove_connection|apply IH].
Qed.

Lemma shrinks_erase_node q p : shrinks p (erase_node q p).
Proof.
  split_and!.
  - intros a x. rewrite deps_of_erase_node. case_decide; [by intros ?%elem_of_nil|done].
  - intros a x. rewrite users_of_erase_node. case_decide; [by intros ?%elem_of_nil|done].
  - intros a. unfold live. rewrite heap_erase_node. case_decide; [by intros [? ?]|done].
  - intros k r Hk. by apply nodes_map_erase_node in Hk as [? _].
Qed.

Lemma no_trace_shrinks p p' node : shrinks p p' → no_trace p node → no_trace p' node.
Proof.
  intros (Hd & Hu & Hl & Hm) (Hh & Hk & Hnd & Hnu). split_and!.
  - destruct (heap p' !! node) as [n|] eqn:Hn; [|done].
    destruct (Hl node) as [n' Hn']; [by exists n|]. congruence.
  - intros k Hk'. by apply (Hk k), Hm.
  - intros a Ha. by apply (Hnd a), Hd.
  - intros a Ha. by apply (Hnu a), Hu.
Qed.

Lemma foldl_detach_step_None rec former : foldl (detach_step rec) None former = None.
Proof. by induction former. Qed.

Lemma foldl_detach_step_shrinks rec former b0 q0 b p' :
  (∀ d q r q', rec d q = Some (r, q') → shrinks q q') →
  foldl (detach_step rec) (Some (b0, q0)) former = Some (b, p') →
  b = b0 ∧ shrinks q0 p'.
Proof.
  intros Hrec. revert q0. induction former as [|d former IH]; intros q0; simpl.
  - intros [= <- <-]. split; [done|apply shrinks_refl].
  - case_bool_decide; [|by apply IH].
    destruct (rec d q0) as [[r q1]|] eqn:Hr.
    + intros [-> Hs]%IH. split; [done|].
      eapply shrinks_trans; [by eapply Hrec|done].
    + by rewrite foldl_detach_step_None.
Qed.

Lemma foldl_detach_step_total rec former b0 q0 bound :
  (∀ d q, size (heap q) < bound →
          ∃ r q', rec d q = Some (r, q') ∧ size (heap q') ≤ size (heap q)) →
  size (heap q0) < bound →
  ∃ p', foldl (detach_step rec) (Some (b0, q0)) former = Some (b0, p') ∧
        size (heap p') ≤ size (heap q0).
Proof.
  intros Hrec. revert q0. induction former as [|d former IH]; intros q0 Hq0; simpl.
  - by exists q0.
  - case_bool_decide; [|by apply IH].
    destruct (Hrec d q0 Hq0) as (r & q1 & -> & Hle).
    destruct (IH q1) as (p' & ? & ?); [lia|]. exists p'. split; [done|lia].
Qed.

Lemma remove_if_dangling_fuel_shrinks fuel node detach p b p' :
  remove_if_dangling_fuel fuel node detach p = Some (b, p') → shrinks p p'.
Proof.
  revert node detach p b p'. induction fuel as [|fuel IH]; intros node detach p b p'; [done|].
  simpl. destruct (_ || _ || _).
  { intros [= <- <-]. apply shrinks_refl. }
  assert (Hs : shrinks p (erase_node node (detach_dependencies node (deps_of p node) p))).
  { eapply shrinks_trans; [apply shrinks_detach_dependencies|apply shrinks_erase_node]. }
  destruct detach.
  - intros [_ ?]%foldl_detach_step_shrinks.
    + by eapply shrinks_trans.
    + intros d q r q'. apply IH.
  - by intros [= <- <-].
Qed.

Lemma remove_if_dangling_fuel_total fuel node detach p :
  size (heap p) < fuel →
  ∃ b p', remove_if_dangling_fuel fuel node detach p = Some (b, p') ∧
          size (heap p') ≤ size (heap p).
Proof.
  revert node detach p. induction fuel as [|fuel IH]; intros node detach p Hsz; [lia|].
  simpl. destruct (_ || _ || _); [by exists false, p|].
  destruct detach; [|eexists _, _; split; [done|]].
  - destruct (heap p !! node) as [n|] eqn:Hn.
    + assert (Hlive : live (detach_dependencies node (deps_of p node) p) node).
      { apply live_detach_dependencies. by exists n. }
      apply size_heap_erase_node in Hlive. rewrite size_heap_detach_dependencies in Hlive.
      edestruct (foldl_detach_step_total
        (λ d q, remove_if_dangling_fuel fuel d true q) (deps_of p node) true
        (erase_node node (detach_dependencies node (deps_of p node) p)) fuel)
        as (p' & Hp' & Hle); [intros d q; apply IH|lia|].
      exists true, p'. split; [done|lia].
    + unfold deps_of. rewrite Hn. simpl. eexists _, _. split; [done|].
      unfold erase_node. by rewrite Hn.
  - destruct (heap p !! node) as [n|] eqn:Hn.
    + assert (Hlive : live (detach_dependencies node (deps_of p node) p) node).
      { apply live_detach_dependencies. by exists n. }
      apply size_heap_erase_node in Hlive. rewrite size_heap_detach_dependencies in Hlive. lia.
    + unfold deps_of. rewrite Hn. simpl. unfold erase_node. by rewrite Hn.
Qed.

Lemma registry_check_sound p : registry_check p = true → registry_wf p.
Proof.
  unfold registry_check. rewrite bool_decide_eq_true. intros Hall k q Hk.
  specialize (Hall k q Hk). simpl in Hall.
  destruct (heap p !! q) as [n|]; [|done]. exists n. split; [done|]. by injection Hall.
Qed.

Lemma no_trace_after_erase p node :
  mirror p → registry_wf p → users_of p node = [] →
  no_trace (erase_node node (detach_dependencies node (deps_of p node) p)) node.
Proof.
  intros Hm Hr Hu. split_and!.
  - by rewrite heap_erase_node, decide_True.
  - intros k [Hk Hid]%nodes_map_erase_node.
    rewrite nodes_map_detach_dependencies in Hk. rewrite id_detach_dependencies in Hid.
    destruct (Hr k node Hk) as (n & Hn & <-). by rewrite Hn in Hid.
  - intros a. rewrite deps_of_erase_node. case_decide; [apply not_elem_of_nil|].
    rewrite deps_of_detach_dependencies by done.
    intros Hin%Hm. rewrite Hu in Hin. by apply elem_of_nil in Hin.
  - intros a. rewrite users_of_erase_node. case_decide; [apply not_elem_of_nil|].
    rewrite users_of_detach_dependencies. case_decide as Hdep.
    + rewrite elem_of_remove_all. by intros [? _].
    + intros Hin. by apply Hdep, Hm.
Qed.

(** ** remove_if_dangling *)

(** C4.  On a store satisfying the mirror invariant and keyed by node
    identifiers, [remove_if_dangling] returns for every node and either flag;
    it answers [true] exactly when the node has no user and is marked neither
    output nor input; on [false] the program is unchanged; on [true] the node
    is gone from the store and from [nodes_map] and occurs in no dependency
    list and no user list. *)
Theorem remove_if_dangling_removes (p : program_impl) (node : node_ptr) (detach : bool) :
  mirror p → registry_wf p →
  ∃ b p', remove_if_dangling node detach p = Some (b, p') ∧
    (b = true ↔ users_of p node = [] ∧ is_output p node = false ∧ is_input p node = false) ∧
    (b = false → p' = p) ∧
    (b = true → no_trace p' node).
Proof.
  intros Hm Hr. unfold remove_if_dangling.
  destruct (remove_if_dangling_fuel_total (S (size (heap p))) node detach p)
    as (b & p' & Hrun & _); [lia|].
  exists b, p'. split; [done|]. revert Hrun. simpl.
  destruct (decide (users_of p node = [])) as [Hu|Hu].
  - rewrite bool_decide_eq_false_2 by (by intros ?). simpl.
    destruct (is_output p node); simpl.
    { intros [= <- <-]. split_and!; [|done..]. split; [done|]. by intros (_ & ? & _). }
    destruct (is_input p node); simpl.
    { intros [= <- <-]. split_and!; [|done..]. split; [done|]. by intros (_ & _ & ?). }
    pose proof (no_trace_after_erase p node Hm Hr Hu) as Hgone.
    destruct detach.
    + intros [-> Hs]%foldl_detach_step_shrinks.
      * split_and!; [done|done|]. intros _. by eapply no_trace_shrinks.
      * intros d q r q'. apply remove_if_dangling_fuel_shrinks.
    + intros [= <- <-]. by split_and!.
  - rewrite bool_decide_eq_true_2 by done. simpl.
    intros [= <- <-]. split_and!; [|done..]. split; [done|]. by intros (? & _).
Qed.

Lemma sample_registry : registry_wf sample.
Proof. apply registry_check_sound. vm_compute. reflexivity. Qed.

Lemma remove_if_dangling_removes_witness :
  ∃ b p', remove_if_dangling 4 true branch = Some (b, p') ∧
    (b = true ↔ users_of branch 4 = [] ∧ is_output branch 4 = false ∧
                is_input branch 4 = false) ∧
    (b = false → p' = branch) ∧
    (b = true → no_trace p' 4).
Proof.
  apply (remove_if_dangling_removes branch 4 true).
  - apply mirror_check_sound. vm_compute. reflexivity.
  - apply registry_check_sound. vm_compute. reflexivity.
Defined.

(** Without the flag only D goes; with it C follows, and A, still read by B,
    stays.  A node with a user, an output and an input are all kept. *)
Example remove_if_dangling_runs :
  (∃ p', remove_if_dangling 4 false branch = Some (true, p') ∧
         has_node "D" p' = false ∧ has_node "C" p' = true ∧
         users_of p' 3 = [] ∧ processing_order p' = [1; 2; 3]%positive ∧
         optimized_out p' = ["D"%string]) ∧
  (∃ p', remove_if_dangling 4 true branch = Some (true, p') ∧
         has_node "D" p' = false ∧ has_node "C" p' = false ∧ has_node "A" p' = true ∧
         users_of p' 1 = [2%positive] ∧ processing_order p' = [1; 2]%positive ∧
         optimized_out p' = ["D"; "C"]%string ∧ mirror_check p' = true) ∧
  remove_if_dangling 3 true branch = Some (false, branch) ∧
  remove_if_dangling 2 true branch = Some (false, branch) ∧
  remove_if_dangling 1 true sample = Some (false, sample).
Proof.
  split_and!; try (eexists; split; [vm_compute; reflexivity|]); vm_compute; done.
Qed.

(** ** extract_and_remove *)

Lemma elem_of_replace_ptr node input x l :
  x ∈ replace_ptr node input l ↔ (x ≠ node ∧ x ∈ l) ∨ (x = input ∧ node ∈ l).
Proof.
  unfold replace_ptr. rewrite list_elem_of_fmap. split.
  - intros (y & -> & Hy). case_decide; subst; [by right|by left].
  - intros [[Hne Hx]|[-> Hn]].
    + exists x. by rewrite decide_False.
    + exists node. by rewrite decide_True.
Qed.

Lemma replace_ptr_idemp node input l :
  replace_ptr node input (replace_ptr node input l) = replace_ptr node input l.
Proof.
  unfold replace_ptr. rewrite <-list_fmap_compose. apply list_fmap_ext.
  intros i x _. simpl. repeat case_decide; congruence.
Qed.

Lemma live_splice_user node input u p a : live (splice_user node input u p) a ↔ live p a.
Proof. unfold splice_user. by rewrite !live_update_node. Qed.

Lemma deps_of_splice_user node input u p a :
  deps_of (splice_user node input u p) a =
    if decide (u = a) then replace_ptr node input (deps_of p a) else deps_of p a.
Proof.
  unfold splice_user. by rewrite deps_of_set_users, deps_of_set_dependencies by (by left).
Qed.

Lemma users_of_splice_user node input u p a :
  live p input →
  users_of (splice_user node input u p) a =
    if decide (input = a) then users_of p a ++ [u] else users_of p a.
Proof.
  intros Hl. unfold splice_user.
  rewrite users_of_set_users by (right; by apply live_update_node).
  by rewrite users_of_set_dependencies.
Qed.

Lemma users_of_splice_user_ne node input u p a :
  input ≠ a → users_of (splice_user node input u p) a = users_of p a.
Proof.
  intros Hne. unfold splice_user.
  by rewrite users_of_set_users_ne, users_of_set_dependencies.
Qed.

Lemma users_of_foldl_splice_user_ne node input us p a :
  input ≠ a →
  users_of (foldl (λ acc u, splice_user node input u acc) p us) a = users_of p a.
Proof.
  intros Hne. revert p. induction us as [|u us IH]; intros p; simpl; [done|].
  by rewrite IH, users_of_splice_user_ne.
Qed.

Lemma users_live p a x : x ∈ users_of p a → live p a.
Proof.
  unfold users_of, live. destruct (heap p !! a); [eauto|by intros ?%elem_of_nil].
Qed.

Lemma live_foldl_splice_user node input us p a :
  live (foldl (λ acc u, splice_user node input u acc) p us) a ↔ live p a.
Proof.
  revert p. induction us as [|u us IH]; intros p; simpl; [done|].
  by rewrite IH, live_splice_user.
Qed.

Lemma deps_of_foldl_splice_user node input us p a :
  deps_of (foldl (λ acc u, splice_user node input u acc) p us) a =
    if decide (a ∈ us) then replace_ptr node input (deps_of p a) else deps_of p a.
Proof.
  revert p. induction us as [|u us IH]; intros p.
  - destruct (decide (a ∈ [])) as [Hin|_]; [by apply elem_of_nil in Hin|done].
  - simpl. rewrite IH, deps_of_splice_user.
    destruct (decide (a ∈ u :: us)) as [Hin|Hin].
    + destruct (decide (u = a)) as [->|Hne].
      * case_decide; [by rewrite replace_ptr_idemp|done].
      * rewrite decide_True; [done|]. apply elem_of_cons in Hin as [?|?]; [congruence|done].
    + apply not_elem_of_cons in Hin as [Hne Hin].
      by rewrite (decide_False (P := a ∈ us)), decide_False.
Qed.

Lemma users_of_foldl_splice_user node input us p a :
  live p input →
  users_of (foldl (λ acc u, splice_user node input u acc) p us) a =
    if decide (input = a) then users_of p a ++ us else users_of p a.
Proof.
  revert p. induction us as [|u us IH]; intros p Hl; simpl.
  - case_decide; [by rewrite app_nil_r|done].
  - rewrite IH by (by apply live_splice_user).
    rewrite users_of_splice_user by done.
    case_decide; [by rewrite <-app_assoc|done].
Qed.

Lemma is_output_live p node : is_output p node = true → live p node.
Proof. unfold is_output, live. destruct (heap p !! node); [eauto|done]. Qed.

Lemma extract_and_remove_refused p node :
  is_output p node = true ∨ length (deps_of p node) ≠ 1 →
  extract_and_remove node p = (false, p).
Proof.
  unfold extract_and_remove. intros [->|Hlen]; [done|].
  destruct (is_output p node); [done|].
  by destruct (deps_of p node) as [|d [|d' ds]].
Qed.

Lemma extract_and_remove_lists p node input :
  is_output p node = false → deps_of p node = [input] →
  ∃ p', extract_and_remove node p = (true, p') ∧
    heap p' !! node = None ∧
    (input ≠ node → live p input →
     users_of p' input = remove_all node (users_of p input) ++ users_of p node) ∧
    (∀ a, a ≠ node →
       deps_of p' a = if decide (a ∈ users_of p node)
                      then replace_ptr node input (deps_of p a) else deps_of p a) ∧
    (∀ a, a ≠ input → a ≠ node → users_of p' a = users_of p a) ∧
    deps_of p' node = [] ∧ users_of p' node = [].
Proof.
  intros Hout Hdeps. unfold extract_and_remove. rewrite Hout, Hdeps.
  eexists. split; [done|]. split_and!.
  - by rewrite heap_erase_node, decide_True.
  - intros Hne Hlive. rewrite users_of_erase_node, decide_False by done.
    rewrite users_of_foldl_splice_user by (by apply live_remove_connection).
    by rewrite decide_True, users_of_remove_connection, decide_True.
  - intros a Ha. rewrite deps_of_erase_node, decide_False by done.
    rewrite deps_of_foldl_splice_user, deps_of_remove_connection.
    by rewrite (decide_False (P := node = a)).
  - intros a Hai Han. rewrite users_of_erase_node, decide_False by done.
    rewrite users_of_foldl_splice_user_ne by done.
    by rewrite users_of_remove_connection, decide_False.
  - by rewrite deps_of_erase_node, decide_True.
  - by rewrite users_of_erase_node, decide_True.
Qed.

Lemma extract_and_remove_mirror p p' node input :
  mirror p → deps_of p node = [input] → input ≠ node →
  users_of p' input = remove_all node (users_of p input) ++ users_of p node →
  (∀ a, a ≠ node →
     deps_of p' a = if decide (a ∈ users_of p node)
                    then replace_ptr node input (deps_of p a) else deps_of p a) →
  (∀ a, a ≠ input → a ≠ node → users_of p' a = users_of p a) →
  deps_of p' node = [] → users_of p' node = [] →
  mirror p' ∧ ∀ a, (node ∉ deps_of p' a) ∧ (node ∉ users_of p' a).
Proof.
  intros Hm Hdeps Hne Hui Hd Hu Hdn Hun.
  assert (Hself : node ∉ users_of p node).
  { intros Hin%Hm. rewrite Hdeps in Hin. apply list_elem_of_singleton in Hin. congruence. }
  assert (Honly : ∀ b, node ∈ users_of p b → b = input).
  { intros b Hin%Hm. rewrite Hdeps in Hin. by apply list_elem_of_singleton in Hin. }
  assert (Hdeps' : ∀ a b, a ≠ node →
            b ∈ deps_of p' a ↔ (b ≠ node ∧ b ∈ deps_of p a) ∨ (b = input ∧ node ∈ deps_of p a)).
  { intros a b Ha. rewrite Hd by done. case_decide as Hau.
    - apply elem_of_replace_ptr.
    - split; [|intros [[_ ?]|[_ Hn]]; [done|by apply Hm in Hn]].
      intros Hb. left. split; [|done]. intros ->. by apply Hau, Hm. }
  assert (Husers' : ∀ a b, a ∈ users_of p' b ↔
            b ≠ node ∧ ((a ≠ node ∧ a ∈ users_of p b) ∨ (b = input ∧ a ∈ users_of p node))).
  { intros a b. destruct (decide (b = node)) as [->|Hb].
    - rewrite Hun. split; [by intros ?%elem_of_nil|by intros [? _]].
    - destruct (decide (b = input)) as [->|Hbi].
      + rewrite Hui, elem_of_app, elem_of_remove_all. intuition congruence.
      + rewrite Hu by done. split; [|intuition congruence].
        intros Ha. split; [done|]. left. split; [|done]. intros ->. by apply Hbi, Honly. }
  split.
  - intros a b. destruct (decide (a = node)) as [->|Ha].
    + rewrite Hdn, Husers'. split; [by intros ?%elem_of_nil|].
      intros [_ [[? _]|[_ ?]]]; done.
    + rewrite Hdeps', Husers' by done. rewrite <-!(Hm _ _).
      split.
      * intros [[Hb Hin]|[-> Hin]]; (split; [congruence|]); [by left|by right].
      * intros [Hb [[_ Hin]|[-> Hin]]]; [by left|by right].
  - intros a. split.
    + destruct (decide (a = node)) as [->|Ha]; [rewrite Hdn; apply not_elem_of_nil|].
      rewrite Hdeps' by done. intros [[? _]|[? _]]; congruence.
    + rewrite Husers'. intros [_ [[? _]|[_ ?]]]; done.
Qed.

(** C5.  [extract_and_remove] answers [false] and returns the program as it
    was when the node is marked as an output or does not have exactly one
    dependency.  With exactly one dependency [input] and no output mark it
    answers [true] and the node is gone; each former user reads [input] at
    the positions where it read the node, and [input] (a live node other
    than the node itself) has them appended to its users; all other lists
    are as before, and a mirrored graph stays mirrored with no edge left that
    mentions the node. *)
Theorem extract_and_remove_splices (p : program_impl) (node : node_ptr) :
  (is_output p node = true ∨ length (deps_of p node) ≠ 1 →
   extract_and_remove node p = (false, p)) ∧
  (∀ input, is_output p node = false → deps_of p node = [input] →
     ∃ p', extract_and_remove node p = (true, p') ∧
       ¬ live p' node ∧
       (∀ u, u ∈ users_of p node → u ≠ node →
          deps_of p' u = replace_ptr node input (deps_of p u)) ∧
       (∀ a, a ∉ users_of p node → a ≠ node → deps_of p' a = deps_of p a) ∧
       (∀ a, a ≠ input → a ≠ node → users_of p' a = users_of p a) ∧
       (input ≠ node → live p input →
          users_of p' input = remove_all node (users_of p input) ++ users_of p node) ∧
       (mirror p → input ≠ node →
          mirror p' ∧ ∀ a, (node ∉ deps_of p' a) ∧ (node ∉ users_of p' a))).
Proof.
  split; [apply extract_and_remove_refused|].
  intros input Hout Hdeps.
  destruct (extract_and_remove_lists p node input Hout Hdeps)
    as (p' & Hrun & Hgone & Hui & Hd & Hu & Hdn & Hun).
  exists p'. split_and!; try done.
  - unfold live. rewrite Hgone. by intros [? ?].
  - intros u Hin Hu'. by rewrite Hd, decide_True.
  - intros a Hin Ha. by rewrite Hd, decide_False.
  - intros Hm Hne. eapply extract_and_remove_mirror; try done.
    apply Hui; [done|]. apply (users_live p input node), Hm.
    rewrite Hdeps. by apply list_elem_of_singleton.
Qed.

Lemma extract_and_remove_splices_witness :
  extract_and_remove 2 branch = (false, branch) ∧
  extract_and_remove 1 branch = (false, branch) ∧
  ∃ p', extract_and_remove 3 branch = (true, p') ∧
    ¬ live p' 3 ∧
    (∀ u, u ∈ users_of branch 3 → u ≠ 3%positive →
       deps_of p' u = replace_ptr 3 1 (deps_of branch u)) ∧
    (∀ a, a ∉ users_of branch 3 → a ≠ 3%positive → deps_of p' a = deps_of branch a) ∧
    (∀ a, a ≠ 1%positive → a ≠ 3%positive → users_of p' a = users_of branch a) ∧
    (1%positive ≠ 3%positive → live branch 1 →
       users_of p' 1 = remove_all 3 (users_of branch 1) ++ users_of branch 3) ∧
    (mirror branch → 1%positive ≠ 3%positive →
       mirror p' ∧ ∀ a, (3%positive ∉ deps_of p' a) ∧ (3%positive ∉ users_of p' a)).
Proof.
  split_and!.
  - apply (extract_and_remove_splices branch 2). left. vm_compute. reflexivity.
  - apply (extract_and_remove_splices branch 1). right. vm_compute. lia.
  - apply (proj2 (extract_and_remove_splices branch 3) 1%positive).
    + vm_compute. reflexivity.
    + vm_compute. reflexivity.
Defined.

(** Extracting C from [branch]: D now reads A directly. *)
Example extract_and_remove_runs :
  let r := extract_and_remove 3 branch in
  r.1 = true ∧ has_node "C" r.2 = false ∧
  deps_of r.2 4 = [1%positive] ∧ users_of r.2 1 = [2; 4]%positive ∧
  optimized_out r.2 = ["C"%string] ∧ mirror_check r.2 = true.
Proof. vm_compute. done. Qed.

(** ** Processing order *)

Example calc_processing_order_runs :
  processing_order (calc_processing_order branch).2 = [1; 2; 3; 4]%positive ∧
  (calc_processing_order sample).1 = inr tt ∧
  processing_order (calc_processing_order sample).2 = [1; 2; 3]%positive ∧
  (∃ e, calc_processing_order looped = (inl e, looped)).
Proof. split_and!; try (vm_compute; reflexivity). eexists. vm_compute. reflexivity. Qed.

Lemma tc_subrel (R R' : relation node_ptr) :
  (∀ a b, R' a b → tc R a b) → ∀ a b, tc R' a b → tc R a b.
Proof.
  intros Hsub a b Htc. induction Htc as [a b Hab|a b c Hab _ IH].
  - by apply Hsub.
  - etrans; [by apply Hsub|done].
Qed.

(** In a non-empty finite set where every element has a successor inside
    the set, some element reaches itself. *)
Lemma no_sink_cycle (R : relation node_ptr) (S : list node_ptr) :
  S ≠ [] → (∀ x, x ∈ S → ∃ y, y ∈ S ∧ R x y) → ∃ a, tc R a a.
Proof.
  revert R. induction S as [|x S IH]; intros R Hne Hsucc; [done|].
  destruct (Hsucc x) as (y0 & Hy0 & Hxy0); [left|].
  apply elem_of_cons in Hy0 as [->|Hy0]; [exists x; by apply tc_once|].
  destruct (IH (λ a b, R a b ∨ (R a x ∧ R x b))) as [a Ha].
  - intros ->. by apply elem_of_nil in Hy0.
  - intros a Ha. destruct (Hsucc a) as (b & Hb & Hab); [by right|].
    apply elem_of_cons in Hb as [->|Hb].
    + exists y0. split; [done|]. by right.
    + exists b. split; [done|by left].
  - exists a. revert Ha. apply tc_subrel.
    intros a' b' [?|[? ?]]; [by apply tc_once|].
    eapply tc_l; [done|by apply tc_once].
Qed.

Lemma depends_live p a b : depends p a b → live p a.
Proof.
  unfold depends, deps_of, live. destruct (heap p !! a); [eauto|by intros ?%elem_of_nil].
Qed.

Lemma schedule_inv_init p : schedule_inv p [] (declared_nodes p).
Proof.
  unfold schedule_inv, declared_nodes. simpl. split_and!.
  - rewrite merge_sort_Permutation. apply NoDup_elements.
  - intros q. rewrite merge_sort_Permutation, elem_of_elements. apply elem_of_dom.
  - intros i q Hi. by rewrite lookup_nil in Hi.
Qed.

Lemma schedule_inv_step p placed pending i q :
  schedule_inv p placed pending → pending !! i = Some q → ready p placed q →
  schedule_inv p (placed ++ [q]) (delete i pending).
Proof.
  intros (Hnd & Hall & Hafter) Hi Hready.
  assert (Hperm : (placed ++ [q]) ++ delete i pending ≡ₚ placed ++ pending).
  { rewrite <-app_assoc. simpl. by rewrite <-(delete_Permutation pending i q). }
  split_and!.
  - by rewrite Hperm.
  - intros x. by rewrite Hperm.
  - intros j x Hj d Hd. apply lookup_app_Some in Hj as [Hj|[Hlen Hj]].
    + destruct (Hafter j x Hj d Hd) as (k & Hk & Hkd).
      exists k. split; [done|]. by apply lookup_app_l_Some.
    + apply list_lookup_singleton_Some in Hj as [Hj ->].
      unfold ready in Hready. rewrite Forall_forall in Hready.
      apply Hready, list_elem_of_lookup in Hd as [k Hk].
      exists k. split; [|by apply lookup_app_l_Some].
      apply lookup_lt_Some in Hk. lia.
Qed.

Lemma schedule_sound p n placed pending order :
  length pending = n → schedule_inv p placed pending →
  schedule n p placed pending = Some order → topological_order p order.
Proof.
  revert placed pending. induction n as [|n IH]; intros placed pending Hlen Hinv; simpl.
  - apply nil_length_inv in Hlen as ->. intros [= <-].
    unfold schedule_inv in Hinv. by rewrite app_nil_r in Hinv.
  - destruct (list_find _ pending) as [[i q]|] eqn:Hfind; [|done].
    apply list_find_Some in Hfind as (Hi & Hready & _).
    apply IH; [|by apply schedule_inv_step].
    rewrite length_delete by eauto. lia.
Qed.

Lemma schedule_complete p n placed pending :
  deps_closed p → ¬ cyclic p →
  length pending = n → schedule_inv p placed pending →
  is_Some (schedule n p placed pending).
Proof.
  intros Hclosed Hacyc. revert placed pending.
  induction n as [|n IH]; intros placed pending Hlen Hinv; simpl; [eauto|].
  destruct (list_find _ pending) as [[i q]|] eqn:Hfind.
  - apply list_find_Some in Hfind as (Hi & Hready & _).
    apply IH; [|by apply schedule_inv_step].
    rewrite length_delete by eauto. lia.
  - apply list_find_None in Hfind. rewrite Forall_forall in Hfind.
    destruct Hacyc. apply (no_sink_cycle (depends p) pending).
    + intros ->. done.
    + intros x Hx. specialize (Hfind x Hx).
      apply not_Forall_Exists, Exists_exists in Hfind as (d & Hd & Hnot); [|apply _].
      exists d. split; [|done].
      destruct Hinv as (_ & Hall & _).
      apply Hclosed, Hall, elem_of_app in Hd as [Hd|Hd]; [by destruct Hnot|done].
Qed.

Lemma tc_depends_before p order a b :
  after_dependencies p order → tc (depends p) a b →
  ∀ i, order !! i = Some a → ∃ j, j < i ∧ order !! j = Some b.
Proof.
  intros Hafter Htc. induction Htc as [a b Hab|a b c Hab _ IH]; intros i Hi.
  - by apply (Hafter i a).
  - destruct (Hafter i a Hi b Hab) as (j & Hj & Hjb).
    destruct (IH j Hjb) as (k & Hk & Hkc). exists k. split; [lia|done].
Qed.

Lemma topological_order_acyclic p order : topological_order p order → ¬ cyclic p.
Proof.
  intros (Hnd & Hall & Hafter) [a Ha].
  assert (Hlive : live p a).
  { inversion Ha; subst; by eapply depends_live. }
  apply Hall, list_elem_of_lookup in Hlive as [i Hi].
  destruct (tc_depends_before p order a a Hafter Ha i Hi) as (j & Hj & Hja).
  pose proof (NoDup_lookup _ _ _ _ Hnd Hi Hja). lia.
Qed.

Lemma schedule_success_acyclic p order :
  schedule (length (declared_nodes p)) p [] (declared_nodes p) = Some order → ¬ cyclic p.
Proof.
  intros Hrun. apply (topological_order_acyclic p order).
  by eapply schedule_sound; [|apply schedule_inv_init|].
Qed.

Lemma deps_closed_check_sound p : deps_closed_check p = true → deps_closed p.
Proof.
  unfold deps_closed_check. rewrite bool_decide_eq_true. intros Hall a d.
  unfold deps_of. destruct (heap p !! a) as [n|] eqn:Ha; [|by intros ?%elem_of_nil].
  specialize (Hall a n Ha). simpl in Hall. rewrite Forall_forall in Hall. apply Hall.
Qed.

(** C2.  On a graph whose dependency pointers all designate stored nodes and
    which has no dependency cycle, [calc_processing_order] succeeds and the
    processing order it leaves lists every stored node exactly once, each
    after all of its dependencies.  On a graph with a dependency cycle it
    fails with an error and leaves no order. *)
Theorem calc_processing_order_topological (p : program_impl) :
  (deps_closed p → ¬ cyclic p →
   ∃ order, calc_processing_order p = (inr tt, with_processing_order order p) ∧
            topological_order p order ∧
            topological_order (calc_processing_order p).2
                              (processing_order (calc_processing_order p).2)) ∧
  (cyclic p → ∃ e, calc_processing_order p = (inl e, p)).
Proof.
  unfold calc_processing_order. split.
  - intros Hclosed Hacyc.
    destruct (schedule_complete p (length (declared_nodes p)) [] (declared_nodes p))
      as [order Hrun]; [done..|apply schedule_inv_init|].
    rewrite Hrun. exists order.
    assert (topological_order p order).
    { by eapply schedule_sound; [|apply schedule_inv_init|]. }
    done.
  - intros Hcyc.
    destruct (schedule _ p [] (declared_nodes p)) as [order|] eqn:Hrun; [|eauto].
    by apply schedule_success_acyclic in Hrun.
Qed.

Lemma calc_processing_order_topological_witness :
  (∃ order, calc_processing_order branch = (inr tt, with_processing_order order branch) ∧
            topological_order branch order ∧
            topological_order (calc_processing_order branch).2
                              (processing_order (calc_processing_order branch).2)) ∧
  (∃ e, calc_processing_order looped = (inl e, looped)).
Proof.
  split.
  - apply (proj1 (calc_processing_order_topological branch)).
    + apply deps_closed_check_sound. vm_compute. reflexivity.
    + apply (schedule_success_acyclic branch [1; 2; 3; 4]%positive).
      vm_compute. reflexivity.
  - apply (proj2 (calc_processing_order_topological looped)).
    exists 2%positive. apply (tc_l _ _ 3%positive).
    + unfold depends. vm_compute. set_solver.
    + apply tc_once. unfold depends. vm_compute. set_solver.
Defined.

(** ** Memory dependencies *)

(** The second scenario of the spec: A conflicts with B and with C by
    liveness; B and C conflict only through the out-of-order policy. *)
Example memory_dependencies_scenario :
  memory_dependencies_of (basic_memory_dependencies (clear_memory_dependencies ordered_sample)) 1
    = {["B"; "C"]}%string ∧
  memory_dependencies_of (basic_memory_dependencies (clear_memory_dependencies ordered_sample)) 2
    = {["A"]}%string ∧
  memory_dependencies_of (prepare_memory_dependencies [] ordered_sample) 2
    = {["A"; "C"]}%string ∧
  memory_dependencies_of (prepare_memory_dependencies [] ordered_sample) 3
    = {["A"; "B"]}%string.
Proof. split_and!; vm_compute; reflexivity. Qed.

Lemma id_of_add_memory_dependency a b p x :
  id_of (add_memory_dependency a b p) x = id_of p x.
Proof.
  unfold add_memory_dependency. destruct (id_of p b); [|done].
  unfold id_of. by rewrite id_update_node.
Qed.

Lemma live_id_of p x : live p x ↔ is_Some (id_of p x).
Proof. unfold live, id_of. by rewrite fmap_is_Some. Qed.

Lemma memory_dependencies_of_add a b p x k :
  k ∈ memory_dependencies_of (add_memory_dependency a b p) x ↔
  k ∈ memory_dependencies_of p x ∨ (x = a ∧ live p a ∧ id_of p b = Some k).
Proof.
  unfold add_memory_dependency. destruct (id_of p b) as [kb|] eqn:Hb.
  - unfold memory_dependencies_of, update_node, live; simpl. rewrite lookup_alter.
    case_decide as Hax; [subst x|].
    + destruct (heap p !! a) as [n|]; simpl.
      * rewrite elem_of_union, elem_of_singleton. split.
        -- intros [?| ->]; [by left|right; eauto].
        -- intros [?|(_ & _ & [= ->])]; [by left|by right].
      * split; [by left|]. intros [?|(_ & [? ?] & _)]; done.
    + split; [by left|]. intros [?|(-> & _)]; done.
  - split; [by left|]. intros [?|(_ & _ & ?)]; done.
Qed.

Lemma id_of_add_conflicts_from c a bs p x :
  id_of (add_conflicts_from c a bs p) x = id_of p x.
Proof.
  revert p. induction bs as [|b bs IH]; intros p; [done|].
  unfold add_conflicts_from in *. simpl. rewrite IH.
  destruct (_ && _); [apply id_of_add_memory_dependency|done].
Qed.

Lemma memory_dependencies_of_add_conflicts_from c a bs p x k :
  k ∈ memory_dependencies_of (add_conflicts_from c a bs p) x ↔
  k ∈ memory_dependencies_of p x ∨
  (x = a ∧ live p a ∧ ∃ b, b ∈ bs ∧ a ≠ b ∧ c a b = true ∧ id_of p b = Some k).
Proof.
  revert p. induction bs as [|b bs IH]; intros p.
  - split; [by left|]. intros [?|(_ & _ & b & ?%elem_of_nil & _)]; done.
  - unfold add_conflicts_from in *. simpl. rewrite IH. clear IH.
    destruct (bool_decide (a ≠ b) && c a b) eqn:Hc.
    + apply andb_true_iff in Hc as [Hab%bool_decide_eq_true Hc].
      rewrite memory_dependencies_of_add, !live_id_of, !id_of_add_memory_dependency.
      setoid_rewrite id_of_add_memory_dependency.
      split.
      * intros [[?|(-> & Hl & Hk)]|(-> & Hl & b' & Hb' & ? & ? & ?)]; [by left|right..].
        -- split_and!; [done..|]. exists b. split_and!; [left|done..].
        -- split_and!; [done..|]. exists b'. split_and!; [by right|done..].
      * intros [?|(-> & Hl & b' & Hb' & Hne & Hcb & Hk)]; [by left; left|].
        apply elem_of_cons in Hb' as [->|Hb']; [left; right; done|].
        right. split_and!; [done..|]. by exists b'.
    + split.
      * intros [?|(-> & Hl & b' & Hb' & ? & ? & ?)]; [by left|right].
        split_and!; [done..|]. exists b'. split_and!; [by right|done..].
      * intros [?|(-> & Hl & b' & Hb' & Hne & Hcb & Hk)]; [by left|].
        apply elem_of_cons in Hb' as [->|Hb'].
        -- apply andb_false_iff in Hc as [Hc|Hc]; [|congruence].
           by apply bool_decide_eq_false in Hc.
        -- right. split_and!; [done..|]. by exists b'.
Qed.

Lemma id_of_foldl_add_conflicts_from c bs rows p x :
  id_of (foldl (λ acc a, add_conflicts_from c a bs acc) p rows) x = id_of p x.
Proof.
  revert p. induction rows as [|a rows IH]; intros p; [done|].
  simpl. by rewrite IH, id_of_add_conflicts_from.
Qed.

Lemma memory_dependencies_of_foldl_add_conflicts_from c bs rows p x k :
  k ∈ memory_dependencies_of (foldl (λ acc a, add_conflicts_from c a bs acc) p rows) x ↔
  k ∈ memory_dependencies_of p x ∨
  (live p x ∧ x ∈ rows ∧ ∃ b, b ∈ bs ∧ x ≠ b ∧ c x b = true ∧ id_of p b = Some k).
Proof.
  revert p. induction rows as [|a rows IH]; intros p.
  - split; [by left|]. intros [?|(_ & ?%elem_of_nil & _)]; done.
  - simpl. rewrite IH. clear IH.
    rewrite memory_dependencies_of_add_conflicts_from, !live_id_of.
    rewrite id_of_add_conflicts_from. setoid_rewrite id_of_add_conflicts_from.
    split.
    + intros [[?|(-> & Hl & Hb)]|(Hl & Hx & Hb)]; [by left|right..].
      * split_and!; [done|left|done].
      * split_and!; [done|by right|done].
    + intros [?|(Hl & Hx & Hb)]; [by left; left|].
      apply elem_of_cons in Hx as [->|Hx]; [left; right; done|by right].
Qed.

Lemma id_of_add_conflicts c p x : id_of (add_conflicts c p) x = id_of p x.
Proof. apply id_of_foldl_add_conflicts_from. Qed.

Lemma processing_order_add_conflicts_from c a bs p :
  processing_order (add_conflicts_from c a bs p) = processing_order p.
Proof.
  revert p. induction bs as [|b bs IH]; intros p; [done|].
  unfold add_conflicts_from in *. simpl. rewrite IH.
  destruct (_ && _); [|done]. unfold add_memory_dependency. by destruct (id_of p b).
Qed.

Lemma processing_order_foldl_add_conflicts_from c bs rows p :
  processing_order (foldl (λ acc a, add_conflicts_from c a bs acc) p rows)
  = processing_order p.
Proof.
  revert p. induction rows as [|a rows IH]; intros p; [done|].
  simpl. by rewrite IH, processing_order_add_conflicts_from.
Qed.

Lemma processing_order_add_conflicts c p :
  processing_order (add_conflicts c p) = processing_order p.
Proof. apply processing_order_foldl_add_conflicts_from. Qed.

Lemma memory_dependencies_of_add_conflicts c p x k :
  k ∈ memory_dependencies_of (add_conflicts c p) x ↔
  k ∈ memory_dependencies_of p x ∨ conflict_entry c p x k.
Proof. apply memory_dependencies_of_foldl_add_conflicts_from. Qed.

Lemma id_of_clear_memory_dependencies p x :
  id_of (clear_memory_dependencies p) x = id_of p x.
Proof.
  unfold id_of, clear_memory_dependencies; simpl. rewrite lookup_fmap.
  by destruct (heap p !! x).
Qed.

Lemma memory_dependencies_of_clear p x :
  memory_dependencies_of (clear_memory_dependencies p) x = ∅.
Proof.
  unfold memory_dependencies_of, clear_memory_dependencies; simpl. rewrite lookup_fmap.
  by destruct (heap p !! x).
Qed.

Lemma conflict_entry_ext c p p' x k :
  (∀ y, id_of p' y = id_of p y) → processing_order p' = processing_order p →
  conflict_entry c p' x k ↔ conflict_entry c p x k.
Proof.
  intros Hid Hord. unfold conflict_entry.
  rewrite !live_id_of, Hid, Hord. by setoid_rewrite Hid.
Qed.

Lemma conflict_entry_sym c p a b ka kb :
  (∀ x y, c x y = c y x) → unique_ids p →
  id_of p a = Some ka → id_of p b = Some kb →
  conflict_entry c p a kb → conflict_entry c p b ka.
Proof.
  intros Hsym Huniq Ha Hb (Hl & Hin & b' & Hb' & Hne & Hc & Hk).
  assert (b' = b) as -> by (by eapply Huniq).
  split_and!; [apply live_id_of; eauto|done|].
  exists a. split_and!; [done|done| |done]. by rewrite Hsym.
Qed.

Lemma live_ranges_overlap_sym p a b : live_ranges_overlap p a b = live_ranges_overlap p b a.
Proof.
  unfold live_ranges_overlap.
  destruct (position p a), (position p b); [apply andb_comm|done..].
Qed.

Lemma carries_marker_sym marked a b : carries_marker marked a b = carries_marker marked b a.
Proof. apply orb_comm. Qed.

Lemma unrelated_sym p a b : unrelated p a b = unrelated p b a.
Proof. apply andb_comm. Qed.

Lemma memory_dependencies_of_basic p x k :
  k ∈ memory_dependencies_of (basic_memory_dependencies (clear_memory_dependencies p)) x ↔
  conflict_entry (live_ranges_overlap (clear_memory_dependencies p)) p x k.
Proof.
  unfold basic_memory_dependencies.
  rewrite memory_dependencies_of_add_conflicts, memory_dependencies_of_clear.
  rewrite (conflict_entry_ext _ p (clear_memory_dependencies p))
    by (done || apply id_of_clear_memory_dependencies).
  split; [intros [?%not_elem_of_empty|?]; done|by right].
Qed.

Lemma memory_dependencies_of_prepare marked p x k :
  k ∈ memory_dependencies_of (prepare_memory_dependencies marked p) x ↔
  conflict_entry (live_ranges_overlap (clear_memory_dependencies p)) p x k ∨
  conflict_entry (carries_marker marked) p x k ∨
  conflict_entry
    (unrelated (skipped_branch_memory_dependencies marked
                  (basic_memory_dependencies (clear_memory_dependencies p)))) p x k.
Proof.
  unfold prepare_memory_dependencies, oooq_memory_dependencies.
  rewrite memory_dependencies_of_add_conflicts.
  unfold skipped_branch_memory_dependencies at 1.
  rewrite memory_dependencies_of_add_conflicts, memory_dependencies_of_basic.
  rewrite (conflict_entry_ext (carries_marker marked) p
             (basic_memory_dependencies (clear_memory_dependencies p))).
  2:{ intros y. unfold basic_memory_dependencies.
      by rewrite id_of_add_conflicts, id_of_clear_memory_dependencies. }
  2:{ unfold basic_memory_dependencies. by rewrite processing_order_add_conflicts. }
  rewrite (conflict_entry_ext (unrelated _) p
             (skipped_branch_memory_dependencies marked
                (basic_memory_dependencies (clear_memory_dependencies p)))).
  2:{ intros y. unfold skipped_branch_memory_dependencies, basic_memory_dependencies.
      by rewrite !id_of_add_conflicts, id_of_clear_memory_dependencies. }
  2:{ unfold skipped_branch_memory_dependencies, basic_memory_dependencies.
      by rewrite !processing_order_add_conflicts. }
  tauto.
Qed.

Lemma id_of_prepare marked p x :
  id_of (prepare_memory_dependencies marked p) x = id_of p x.
Proof.
  unfold prepare_memory_dependencies, oooq_memory_dependencies,
    skipped_branch_memory_dependencies, basic_memory_dependencies.
  by rewrite !id_of_add_conflicts, id_of_clear_memory_dependencies.
Qed.

Lemma conflict_entry_live c p x k : conflict_entry c p x k → is_Some (id_of p x).
Proof. intros (Hl & _). by apply live_id_of. Qed.

(** *** The ancestor test decides reachability *)

Lemma reaches_sound p fuel a b : reaches fuel p a b = true → tc (depends p) a b.
Proof.
  revert a. induction fuel as [|fuel IH]; intros a; simpl; [done|].
  rewrite existsb_exists. intros (d & Hd%list_elem_of_In & Hor).
  apply orb_true_iff in Hor as [->%bool_decide_eq_true|Hrec].
  - by apply tc_once.
  - eapply tc_l; [done|by apply IH].
Qed.

Lemma reaches_S p fuel a b :
  reaches (S fuel) p a b =
    existsb (λ d, bool_decide (d = b) || reaches fuel p d b) (deps_of p a).
Proof. done. Qed.

Lemma reaches_path p a l b : is_path p a l b → reaches (S (length l)) p a b = true.
Proof.
  revert a. induction l as [|x l IH]; intros a.
  - intros Hab. rewrite reaches_S. apply existsb_exists. exists b.
    split; [by apply list_elem_of_In|]. by rewrite bool_decide_eq_true_2.
  - intros [Hax Hpath]. rewrite reaches_S. apply existsb_exists. exists x.
    split; [by apply list_elem_of_In|].
    change (length (x :: l)) with (S (length l)).
    rewrite (IH x Hpath). apply orb_true_r.
Qed.

Lemma reaches_mono p fuel fuel' a b :
  fuel ≤ fuel' → reaches fuel p a b = true → reaches fuel' p a b = true.
Proof.
  revert fuel' a. induction fuel as [|fuel IH]; intros fuel' a Hle; simpl; [done|].
  destruct fuel' as [|fuel']; [lia|]. simpl. rewrite !existsb_exists.
  intros (d & Hd & Hor). exists d. split; [done|].
  apply orb_true_iff in Hor as [->|Hrec]; [done|].
  rewrite (IH fuel' d) by (done || lia). apply orb_true_r.
Qed.

Lemma tc_is_path p a b : tc (depends p) a b → ∃ l, is_path p a l b.
Proof.
  induction 1 as [a b Hab|a x b Hax _ [l Hl]]; [by exists []|by exists (x :: l)].
Qed.

Lemma is_path_suffix p x l b l1 a l2 :
  is_path p x l b → x :: l = l1 ++ a :: l2 → is_path p a l2 b.
Proof.
  revert x l. induction l1 as [|y l1 IH]; intros x l Hpath Heq; simpl in Heq.
  - by injection Heq as -> ->.
  - injection Heq as -> ->.
    destruct (l1 ++ a :: l2) as [|z rest] eqn:Hrest; [by destruct l1|].
    destruct Hpath as [_ Hpath]. by eapply IH.
Qed.

Lemma is_path_simple p a l b :
  is_path p a l b → ∃ l', is_path p a l' b ∧ NoDup (a :: l').
Proof.
  revert a. induction l as [|x l IH]; intros a.
  - intros Hab. exists []. split; [done|]. apply NoDup_singleton.
  - intros [Hax (l' & Hpath & Hnd)%IH].
    destruct (decide (a ∈ x :: l')) as [Hin|Hin].
    + apply list_elem_of_split in Hin as (l1 & l2 & Heq).
      exists l2. split; [by eapply is_path_suffix|].
      rewrite Heq in Hnd. by apply NoDup_app in Hnd as (_ & _ & ?).
    + exists (x :: l'). split; [done|]. by apply NoDup_cons.
Qed.

Lemma is_path_sources_live p a l b : is_path p a l b → ∀ x, x ∈ a :: l → live p x.
Proof.
  revert a. induction l as [|y l IH]; intros a.
  - intros Hab x ->%list_elem_of_singleton. by eapply depends_live.
  - intros [Hay Hpath] x [->|Hx]%elem_of_cons; [by eapply depends_live|by eapply IH].
Qed.

Lemma live_nodes_bound p l : NoDup l → (∀ x, x ∈ l → live p x) → length l ≤ size (heap p).
Proof.
  intros Hnd Hlive.
  rewrite <-(size_dom (D:=gset positive)).
  change (size (dom (heap p))) with (length (elements (dom (heap p)))).
  apply submseteq_length, NoDup_submseteq; [done|].
  intros x Hx. apply elem_of_elements, elem_of_dom. by apply Hlive.
Qed.

Lemma is_ancestor_spec p a b : is_ancestor p a b = true ↔ tc (depends p) b a.
Proof.
  unfold is_ancestor. split; [apply reaches_sound|].
  intros (l & Hl)%tc_is_path.
  apply is_path_simple in Hl as (l' & Hpath & Hnd).
  apply (reaches_mono p (S (length l'))); [|by apply reaches_path].
  apply (live_nodes_bound p (b :: l')); [done|by eapply is_path_sources_live].
Qed.

(** Two nodes are [unrelated] exactly when neither depends on the other,
    directly or indirectly. *)
Lemma unrelated_spec p a b :
  unrelated p a b = true ↔ ¬ tc (depends p) b a ∧ ¬ tc (depends p) a b.
Proof.
  unfold unrelated. rewrite andb_true_iff, !negb_true_iff, <-!not_true_iff_false.
  by rewrite !is_ancestor_spec.
Qed.

(** C3.  With distinct identifiers on distinct nodes, and whichever nodes
    carry the skipped-branch marker, the graph left by
    [prepare_memory_dependencies] is symmetric, and it contains every
    conflict that the basic liveness policy alone records. *)
Theorem prepare_memory_dependencies_symmetric (p : program_impl) (marked : list node_ptr) :
  unique_ids p →
  (∀ a b, conflicts (prepare_memory_dependencies marked p) a b →
          conflicts (prepare_memory_dependencies marked p) b a) ∧
  (∀ a b, conflicts (basic_memory_dependencies (clear_memory_dependencies p)) a b →
          conflicts (prepare_memory_dependencies marked p) a b).
Proof.
  intros Huniq. split.
  - intros a b (kb & Hb & Hin). rewrite id_of_prepare in Hb.
    apply memory_dependencies_of_prepare in Hin.
    assert (∃ ka, id_of p a = Some ka) as [ka Ha].
    { destruct Hin as [H|[H|H]]; by apply conflict_entry_live in H. }
    exists ka. rewrite id_of_prepare. split; [done|].
    apply memory_dependencies_of_prepare.
    destruct Hin as [H|[H|H]]; [left|right; left|right; right];
      revert H; apply conflict_entry_sym; try done.
    + apply live_ranges_overlap_sym.
    + apply carries_marker_sym.
    + apply unrelated_sym.
  - intros a b (kb & Hb & Hin). exists kb. split.
    + rewrite id_of_prepare. unfold basic_memory_dependencies in Hb.
      by rewrite id_of_add_conflicts, id_of_clear_memory_dependencies in Hb.
    + apply memory_dependencies_of_prepare. left.
      by apply memory_dependencies_of_basic.
Qed.

Lemma NoDup_fmap_inj_on {A B} (f : A → B) (l : list A) x y :
  NoDup (f <$> l) → x ∈ l → y ∈ l → f x = f y → x = y.
Proof.
  induction l as [|z l IH]; simpl; [by intros _ ?%elem_of_nil|].
  rewrite NoDup_cons. intros [Hz Hnd] Hx Hy Hf.
  apply elem_of_cons in Hx as [->|Hx], Hy as [->|Hy]; [done| | |by apply IH].
  - destruct Hz. rewrite Hf. by apply list_elem_of_fmap_2.
  - destruct Hz. rewrite <-Hf. by apply list_elem_of_fmap_2.
Qed.

Lemma unique_ids_check_sound p : unique_ids_check p = true → unique_ids p.
Proof.
  unfold unique_ids_check. rewrite bool_decide_eq_true. intros Hnd a b k Ha Hb.
  unfold id_of in Ha, Hb.
  destruct (heap p !! a) as [na|] eqn:Hna; [|done].
  destruct (heap p !! b) as [nb|] eqn:Hnb; [|done].
  simpl in Ha, Hb. injection Ha as Ha. injection Hb as Hb.
  apply elem_of_map_to_list in Hna, Hnb.
  assert ((a, na) = (b, nb)) as [= -> _]; [|done].
  eapply (NoDup_fmap_inj_on (λ kv, id kv.2)); [done..|]. simpl. congruence.
Qed.

Lemma prepare_memory_dependencies_symmetric_witness :
  (∀ a b, conflicts (prepare_memory_dependencies [2%positive] ordered_sample) a b →
          conflicts (prepare_memory_dependencies [2%positive] ordered_sample) b a) ∧
  (∀ a b, conflicts (basic_memory_dependencies
                       (clear_memory_dependencies ordered_sample)) a b →
          conflicts (prepare_memory_dependencies [2%positive] ordered_sample) a b).
Proof.
  apply (prepare_memory_dependencies_symmetric ordered_sample [2%positive]).
  apply unique_ids_check_sound. vm_compute. reflexivity.
Defined.

(** * Further properties of the inline functions *)

(** ** Lookups *)

(** X1.  A lookup never changes the program, found or not, and the two
    overloads of [get_node] give the same answer. *)
Theorem get_node_pure (p : program_impl) (k : primitive_id) :
  get_node k p = (get_node_const k p, p).
Proof.
  unfold get_node, get_node_const, try_catch, throw, map_at.
  by destruct (nodes_map p !! k).
Qed.

(** X2.  [has_node] answers [true] exactly for the identifiers on which
    [get_node] succeeds, and a successful [get_node] returns the node that
    [nodes_map] holds under the identifier. *)
Theorem has_node_iff_get_node (p : program_impl) (k : primitive_id) :
  (has_node k p = true ↔ ∃ q, get_node k p = (inr q, p)) ∧
  (∀ q, get_node k p = (inr q, p) ↔ nodes_map p !! k = Some q).
Proof.
  rewrite get_node_pure. unfold has_node, get_node_const, map_at.
  rewrite bool_decide_eq_true. destruct (nodes_map p !! k) as [q|]; split.
  - split; [intros _; by exists q|eauto].
  - intros q'. split; [by intros [= ->]|by intros [= ->]].
  - split; [by intros [? ?]|by intros [? [=]]].
  - intros q'. split; [by intros [=]|by intros [=]].
Qed.

(** X3.  The only error a lookup raises is the runtime error built from the
    identifier asked for, so that [std::out_of_range] never escapes; it is
    raised only for an identifier missing from [nodes_map], and two lookups
    failing with the same error asked for the same identifier. *)
Theorem get_node_error (p : program_impl) (k : primitive_id) (e : exn) :
  (get_node k p).1 = inl e →
  e = runtime_error (not_found_message k) ∧
  nodes_map p !! k = None ∧
  (∀ p' k', (get_node k' p').1 = inl e → k' = k).
Proof.
  assert (Hfail : ∀ p0 k0 e0, (get_node k0 p0).1 = inl e0 →
            e0 = runtime_error (not_found_message k0) ∧ nodes_map p0 !! k0 = None).
  { intros p0 k0 e0. rewrite get_node_pure. unfold get_node_const, map_at. simpl.
    destruct (nodes_map p0 !! k0); [done|]. by intros [= <-]. }
  intros [-> Hnone]%Hfail. split_and!; [done..|].
  intros p' k' [[= Hmsg] _]%Hfail.
  unfold not_found_message in Hmsg. by apply String.app_inj in Hmsg.
Qed.

Lemma get_node_error_witness :
  runtime_error "Program doesn't contain primtive node: Z"
    = runtime_error (not_found_message "Z") ∧
  nodes_map sample !! "Z"%string = None ∧
  (∀ p' k', (get_node k' p').1
              = inl (runtime_error "Program doesn't contain primtive node: Z") →
            k' = "Z"%string).
Proof.
  apply (get_node_error sample "Z"
           (runtime_error "Program doesn't contain primtive node: Z")).
  vm_compute. reflexivity.
Defined.

(** ** The edge primitives as functions on the whole program *)

Lemma add_connection_unfold p prev next :
  add_connection prev next p =
    with_heap (alter (set_dependencies (push_back prev)) next
                 (alter (set_users (push_back next)) prev (heap p))) p.
Proof. done. Qed.

Lemma remove_connection_unfold p prev next :
  remove_connection prev next p =
    with_heap (alter (set_dependencies (remove_all prev)) next
                 (alter (set_users (remove_all next)) prev (heap p))) p.
Proof. done. Qed.

Lemma with_heap_id p h : h = heap p → with_heap h p = p.
Proof. intros ->. by destruct p. Qed.

Lemma with_heap_with_heap p h h' : with_heap h (with_heap h' p) = with_heap h p.
Proof. done. Qed.

Lemma heap_with_heap p h : heap (with_heap h p) = h.
Proof. done. Qed.

Lemma remove_all_app v l1 l2 :
  remove_all v (l1 ++ l2) = remove_all v l1 ++ remove_all v l2.
Proof. apply filter_app. Qed.

Lemma remove_all_singleton v w :
  remove_all v [w] = if decide (w = v) then [] else [w].
Proof.
  unfold remove_all. rewrite filter_cons, filter_nil.
  destruct (decide (w ≠ v)) as [Hne|Heq].
  - by rewrite decide_False.
  - apply dec_stable in Heq. by rewrite decide_True.
Qed.

Lemma remove_all_absent v l : v ∉ l → remove_all v l = l.
Proof.
  induction l as [|x l IH]; [done|]. rewrite not_elem_of_cons. intros [Hne Hl].
  unfold remove_all in *. rewrite filter_cons, decide_True by done. by rewrite IH.
Qed.

Lemma set_fields_commute f g n :
  set_dependencies f (set_users g n) = set_users g (set_dependencies f n).
Proof. done. Qed.

(** X4.  Removing a connection right after adding it gives the program that
    removing alone gives: every copy of the edge is gone, the one just added
    included. *)
Theorem remove_after_add_connection (p : program_impl) (prev next : node_ptr) :
  remove_connection prev next (add_connection prev next p) = remove_connection prev next p.
Proof.
  rewrite add_connection_unfold, !remove_connection_unfold.
  rewrite with_heap_with_heap, heap_with_heap. f_equal.
  heap_equal;
    rewrite ?remove_all_app, ?remove_all_singleton, ?decide_True, ?app_nil_r by done;
    done.
Qed.

Lemma remove_connection_absent_id p prev next :
  prev ∉ deps_of p next → next ∉ users_of p prev → remove_connection prev next p = p.
Proof.
  intros Hd Hu. rewrite remove_connection_unfold. apply with_heap_id.
  unfold deps_of in Hd. unfold users_of in Hu.
  apply map_eq. intros x. rewrite !lookup_alter.
  repeat case_decide; simplify_eq; try done.
  - destruct (heap p !! x) as [[]|]; [|done]. simpl in *.
    unfold set_dependencies, set_users. simpl.
    by rewrite !remove_all_absent.
  - destruct (heap p !! x) as [[]|]; [|done]. simpl in *.
    unfold set_dependencies. simpl. by rewrite remove_all_absent.
  - destruct (heap p !! x) as [[]|]; [|done]. simpl in *.
    unfold set_users. simpl. by rewrite remove_all_absent.
Qed.

(** X5.  [remove_connection] leaves the program as it is exactly when the
    edge is recorded on neither side; and [add_connection] followed by
    [remove_connection] gives the program back exactly in that case: when
    copies of the edge were there before, they are gone as well. *)
Theorem remove_connection_absent (p : program_impl) (prev next : node_ptr) :
  (remove_connection prev next p = p ↔
   (prev ∉ deps_of p next) ∧ (next ∉ users_of p prev)) ∧
  (remove_connection prev next (add_connection prev next p) = p ↔
   (prev ∉ deps_of p next) ∧ (next ∉ users_of p prev)).
Proof.
  rewrite remove_after_add_connection.
  assert (remove_connection prev next p = p ↔
          (prev ∉ deps_of p next) ∧ (next ∉ users_of p prev)); [|done].
  split.
  - intros Heq. split.
    + rewrite <-Heq, deps_of_remove_connection, decide_True by done.
      rewrite elem_of_remove_all. by intros [? _].
    + rewrite <-Heq, users_of_remove_connection, decide_True by done.
      rewrite elem_of_remove_all. by intros [? _].
  - intros [Hd Hu]. by apply remove_connection_absent_id.
Qed.

(** The edge from A to B is in [sample], the one from B to C is not. *)
Example remove_connection_undo_runs :
  remove_connection 2 3 (add_connection 2 3 sample) = sample ∧
  remove_connection 1 2 (add_connection 1 2 sample) ≠ sample.
Proof.
  split.
  - apply remove_connection_absent. split; apply (bool_decide_unpack _); vm_compute; exact I.
  - intros [Hd _]%remove_connection_absent. apply Hd. vm_compute. apply list_elem_of_here.
Qed.

(** X6.  [remove_connection] is idempotent: a second call for the same pair
    finds nothing left to remove. *)
Theorem remove_connection_idempotent (p : program_impl) (prev next : node_ptr) :
  remove_connection prev next (remove_connection prev next p)
  = remove_connection prev next p.
Proof.
  rewrite !remove_connection_unfold.
  rewrite with_heap_with_heap, heap_with_heap. f_equal.
  heap_equal; by rewrite ?remove_all_idemp.
Qed.

(** X7.  [remove_connection prev next] takes out the entries of this pair
    only: what stays in the dependencies of [next] and in the users of [prev]
    keeps its order and its number of occurrences, every other list is
    untouched, and so are the other fields of the program. *)
Theorem remove_connection_frame (p : program_impl) (prev next : node_ptr) :
  deps_of (remove_connection prev next p) next = remove_all prev (deps_of p next) ∧
  users_of (remove_connection prev next p) prev = remove_all next (users_of p prev) ∧
  deps_of (remove_connection prev next p) next `sublist_of` deps_of p next ∧
  users_of (remove_connection prev next p) prev `sublist_of` users_of p prev ∧
  (∀ x, x ≠ prev →
     count_occ_ptr x (deps_of (remove_connection prev next p) next)
     = count_occ_ptr x (deps_of p next)) ∧
  (∀ x, x ≠ next →
     count_occ_ptr x (users_of (remove_connection prev next p) prev)
     = count_occ_ptr x (users_of p prev)) ∧
  (∀ a, a ≠ next → deps_of (remove_connection prev next p) a = deps_of p a) ∧
  (∀ a, a ≠ prev → users_of (remove_connection prev next p) a = users_of p a) ∧
  (inputs (remove_connection prev next p), outputs (remove_connection prev next p),
   processing_order (remove_connection prev next p),
   nodes_map (remove_connection prev next p), optimized_out (remove_connection prev next p))
  = (inputs p, outputs p, processing_order p, nodes_map p, optimized_out p).
Proof.
  rewrite deps_of_remove_connection, users_of_remove_connection, !decide_True by done.
  split_and!; try done.
  - apply sublist_filter.
  - apply sublist_filter.
  - intros x Hx. by rewrite count_occ_ptr_remove_all, decide_False.
  - intros x Hx. by rewrite count_occ_ptr_remove_all, decide_False.
  - intros a Ha. by rewrite deps_of_remove_connection, decide_False.
  - intros a Ha. by rewrite users_of_remove_connection, decide_False.
Qed.

Lemma remove_connection_frame_witness :
  deps_of (remove_connection 1 2 sample) 2 = remove_all 1 (deps_of sample 2) ∧
  users_of (remove_connection 1 2 sample) 1 = remove_all 2 (users_of sample 1) ∧
  deps_of (remove_connection 1 2 sample) 2 `sublist_of` deps_of sample 2 ∧
  users_of (remove_connection 1 2 sample) 1 `sublist_of` users_of sample 1 ∧
  (∀ x, x ≠ 1%positive →
     count_occ_ptr x (deps_of (remove_connection 1 2 sample) 2)
     = count_occ_ptr x (deps_of sample 2)) ∧
  (∀ x, x ≠ 2%positive →
     count_occ_ptr x (users_of (remove_connection 1 2 sample) 1)
     = count_occ_ptr x (users_of sample 1)) ∧
  (∀ a, a ≠ 2%positive → deps_of (remove_connection 1 2 sample) a = deps_of sample a) ∧
  (∀ a, a ≠ 1%positive → users_of (remove_connection 1 2 sample) a = users_of sample a) ∧
  (inputs (remove_connection 1 2 sample), outputs (remove_connection 1 2 sample),
   processing_order (remove_connection 1 2 sample),
   nodes_map (remove_connection 1 2 sample), optimized_out (remove_connection 1 2 sample))
  = (inputs sample, outputs sample, processing_order sample, nodes_map sample,
     optimized_out sample).
Proof. apply (remove_connection_frame sample 1 2). Defined.

Lemma id_of_update_node p q f a :
  (∀ n, id (f n) = id n) → id_of (update_node q f p) a = id_of p a.
Proof. apply id_update_node. Qed.

Lemma registry_wf_id_of p :
  registry_wf p ↔ ∀ k q, nodes_map p !! k = Some q → id_of p q = Some k.
Proof.
  unfold registry_wf, id_of. split; intros Hwf k q Hk.
  - destruct (Hwf k q Hk) as (n & -> & <-). done.
  - specialize (Hwf k q Hk). destruct (heap p !! q) as [n|]; [|done].
    exists n. split; [done|]. by injection Hwf.
Qed.

Lemma registry_stable p p' :
  nodes_map p' = nodes_map p → (∀ a, id_of p' a = id_of p a) →
  (∀ k, get_node_const k p' = get_node_const k p ∧ has_node k p' = has_node k p) ∧
  (∀ a, live p' a ↔ live p a) ∧
  (registry_wf p' ↔ registry_wf p).
Proof.
  intros Hmap Hid. split_and!.
  - intros k. unfold get_node_const, has_node. by rewrite Hmap.
  - intros a. by rewrite !live_id_of, Hid.
  - rewrite !registry_wf_id_of, Hmap. by setoid_rewrite Hid.
Qed.

(** X8.  The edge primitives touch [users] and [dependencies] and nothing
    else: after either of them every identifier resolves as before
    ([get_node], [has_node]), the same nodes exist under the same
    identifiers, and [nodes_map] is keyed by node identifier exactly when it
    was before. *)
Theorem connection_keeps_registry (p : program_impl) (prev next : node_ptr) :
  ((∀ k, get_node_const k (add_connection prev next p) = get_node_const k p ∧
         has_node k (add_connection prev next p) = has_node k p) ∧
   (∀ a, live (add_connection prev next p) a ↔ live p a) ∧
   (registry_wf (add_connection prev next p) ↔ registry_wf p)) ∧
  ((∀ k, get_node_const k (remove_connection prev next p) = get_node_const k p ∧
         has_node k (remove_connection prev next p) = has_node k p) ∧
   (∀ a, live (remove_connection prev next p) a ↔ live p a) ∧
   (registry_wf (remove_connection prev next p) ↔ registry_wf p)).
Proof.
  split; apply registry_stable; try done; intros a.
  - unfold add_connection. by rewrite !id_of_update_node.
  - unfold remove_connection. by rewrite !id_of_update_node.
Qed.

(** ** Edits of different edges commute *)

Lemma remove_all_comm v w l : remove_all v (remove_all w l) = remove_all w (remove_all v l).
Proof.
  unfold remove_all. induction l as [|x l IH]; [done|].
  rewrite !filter_cons.
  destruct (decide (x ≠ w)), (decide (x ≠ v));
    rewrite ?filter_cons, ?decide_True, ?decide_False by done; by rewrite ?IH.
Qed.

Lemma remove_all_snoc_ne v w l : w ≠ v → remove_all v (l ++ [w]) = remove_all v l ++ [w].
Proof. intros Hne. by rewrite remove_all_app, remove_all_singleton, decide_False. Qed.

(** X9.  Removing one edge and adding a different one can be done in either
    order: the resulting programs are equal. *)
Theorem remove_add_connection_commute (p : program_impl) (a b c d : node_ptr) :
  a ≠ c ∨ b ≠ d →
  remove_connection a b (add_connection c d p)
  = add_connection c d (remove_connection a b p).
Proof.
  intros Hne.
  rewrite !add_connection_unfold, !remove_connection_unfold.
  rewrite !with_heap_with_heap, !heap_with_heap. f_equal.
  destruct Hne; heap_equal; rewrite ?remove_all_snoc_ne by done; done.
Qed.

Lemma remove_add_connection_commute_witness :
  remove_connection 1 2 (add_connection 1 3 sample)
  = add_connection 1 3 (remove_connection 1 2 sample).
Proof. apply (remove_add_connection_commute sample 1 2 1 3). right. lia. Defined.

(** X10.  Two removals commute, whatever the pairs; two additions commute
    when they append to different lists, that is when the two edges share
    neither their source nor their target. *)
Theorem connections_commute (p : program_impl) (a b c d : node_ptr) :
  remove_connection a b (remove_connection c d p)
  = remove_connection c d (remove_connection a b p) ∧
  (a ≠ c → b ≠ d →
   add_connection a b (add_connection c d p) = add_connection c d (add_connection a b p)).
Proof.
  split.
  - rewrite !remove_connection_unfold.
    rewrite !with_heap_with_heap, !heap_with_heap. f_equal.
    heap_equal; repeat first [done | apply remove_all_comm | progress f_equal].
  - intros Hac Hbd. rewrite !add_connection_unfold.
    rewrite !with_heap_with_heap, !heap_with_heap. f_equal.
    heap_equal; done.
Qed.

Lemma connections_commute_witness :
  remove_connection 1 2 (remove_connection 2 3 sample)
  = remove_connection 2 3 (remove_connection 1 2 sample) ∧
  add_connection 1 2 (add_connection 2 3 sample)
  = add_connection 2 3 (add_connection 1 2 sample).
Proof.
  destruct (connections_commute sample 1 2 2 3) as [Hr Ha].
  split; [exact Hr|apply Ha; lia].
Defined.

(** Appending to the same list does depend on the order. *)
Example add_connection_order_matters :
  users_of (add_connection 1 2 (add_connection 1 3 sample)) 1 = [2; 3; 3; 2]%positive ∧
  users_of (add_connection 1 3 (add_connection 1 2 sample)) 1 = [2; 3; 2; 3]%positive.
Proof. split; vm_compute; reflexivity. Qed.

(** ** The edge primitives and the shape of the dependency graph *)

Lemma depends_add_connection p prev next a b :
  live p next →
  depends (add_connection prev next p) a b ↔ depends p a b ∨ (a = next ∧ b = prev).
Proof.
  intros Hl. unfold depends. rewrite deps_of_add_connection by done.
  case_decide as Ha.
  - subst a. rewrite elem_of_app, list_elem_of_singleton. intuition congruence.
  - intuition congruence.
Qed.

Lemma depends_remove_connection p prev next a b :
  depends (remove_connection prev next p) a b ↔
  depends p a b ∧ ¬ (a = next ∧ b = prev).
Proof.
  unfold depends. rewrite deps_of_remove_connection.
  case_decide as Ha.
  - subst a. rewrite elem_of_remove_all. intuition congruence.
  - intuition congruence.
Qed.

(** X11.  Both primitives keep every dependency pointer on a stored node. *)
Theorem connection_keeps_deps_closed (p : program_impl) (prev next : node_ptr) :
  deps_closed p →
  deps_closed (remove_connection prev next p) ∧
  (live p prev → live p next → deps_closed (add_connection prev next p)).
Proof.
  intros Hclosed. split.
  - intros a d [Hd _]%depends_remove_connection.
    apply live_remove_connection. by eapply Hclosed.
  - intros Hprev Hnext a d. unfold add_connection. rewrite !live_update_node.
    intros [Hd|[-> ->]]%depends_add_connection; [by eapply Hclosed|done..].
Qed.

Lemma sample_deps_closed : deps_closed sample.
Proof. apply deps_closed_check_sound. vm_compute. reflexivity. Qed.

Lemma connection_keeps_deps_closed_witness :
  deps_closed (remove_connection 1 2 sample) ∧ deps_closed (add_connection 2 3 sample).
Proof.
  destruct (connection_keeps_deps_closed sample 2 3) as [_ Ha];
    [apply deps_closed_check_sound; vm_compute; reflexivity|].
  destruct (connection_keeps_deps_closed sample 1 2) as [Hr _];
    [apply deps_closed_check_sound; vm_compute; reflexivity|].
  split; [exact Hr|apply Ha; vm_compute; eauto].
Defined.

(** X12.  Taking an edge away cannot close a dependency cycle: a graph that
    has a cycle after [remove_connection] had one before. *)
Theorem remove_connection_keeps_acyclic (p : program_impl) (prev next : node_ptr) :
  ¬ cyclic p → ¬ cyclic (remove_connection prev next p).
Proof.
  intros Hacyc [a Ha]. apply Hacyc. exists a. revert Ha. apply tc_subrel.
  intros x y [Hxy _]%depends_remove_connection. by apply tc_once.
Qed.

Lemma sample_acyclic : ¬ cyclic sample.
Proof. apply (schedule_success_acyclic sample [1; 2; 3]%positive). vm_compute. reflexivity. Qed.

Lemma remove_connection_keeps_acyclic_witness : ¬ cyclic (remove_connection 1 2 sample).
Proof.
  apply (remove_connection_keeps_acyclic sample 1 2).
  apply (schedule_success_acyclic sample [1; 2; 3]%positive). vm_compute. reflexivity.
Defined.

(** Paths of a relation extended by the single edge from [x] to [y]. *)
Lemma tc_extra_edge (R R' : relation node_ptr) (x y : node_ptr) :
  (∀ a b, R' a b → R a b ∨ (a = x ∧ b = y)) →
  ∀ a b, tc R' a b →
    tc R a b ∨ ((a = x ∨ tc R a x) ∧ (y = b ∨ tc R y b)).
Proof.
  intros Hstep a b Htc. induction Htc as [a b Hab|a b c Hab _ IH].
  - destruct (Hstep a b Hab) as [?|[-> ->]]; [left; by apply tc_once|right; by split; left].
  - destruct (Hstep a b Hab) as [Hr|[-> ->]].
    + destruct IH as [Hbc|[Hbx Hyc]].
      * left. by eapply tc_l.
      * right. split; [right|done].
        destruct Hbx as [->|Hbx]; [by apply tc_once|by eapply tc_l].
    + right. split; [by left|].
      destruct IH as [Hyc|[_ Hyc]]; [by right|done].
Qed.

(** X13.  [add_connection prev next] closes a dependency cycle exactly when
    there was one already, when [prev] is [next], or when [prev] already
    depends on [next], directly or not. *)
Theorem add_connection_cyclic_iff (p : program_impl) (prev next : node_ptr) :
  live p next →
  cyclic (add_connection prev next p) ↔
  cyclic p ∨ prev = next ∨ tc (depends p) prev next.
Proof.
  intros Hl.
  assert (Hmono : ∀ a b, tc (depends p) a b → tc (depends (add_connection prev next p)) a b).
  { apply tc_subrel. intros a b Hab. apply tc_once, depends_add_connection; auto. }
  assert (Hnew : depends (add_connection prev next p) next prev).
  { apply depends_add_connection; auto. }
  split.
  - intros [a Ha].
    apply (tc_extra_edge (depends p) _ next prev) in Ha.
    2:{ intros x y. by apply depends_add_connection. }
    destruct Ha as [Ha|[[->|Han] [->|Hpa]]].
    + left. by exists a.
    + right. by left.
    + right. by right.
    + right. by right.
    + right. right. by etrans.
  - intros [[a Ha]|[->|Hpn]].
    + exists a. by apply Hmono.
    + exists next. by apply tc_once.
    + exists next. eapply tc_l; [done|by apply Hmono].
Qed.

Lemma add_connection_cyclic_iff_witness :
  cyclic (add_connection 2 1 sample) ↔
  cyclic sample ∨ 2%positive = 1%positive ∨ tc (depends sample) 2%positive 1%positive.
Proof. apply (add_connection_cyclic_iff sample 2 1). vm_compute. eauto. Defined.

(** In [sample] B reads A, so making A read B closes a cycle, while an edge
    from B to C does not. *)
Example add_connection_cycle_runs :
  cyclic (add_connection 2 1 sample) ∧ ¬ cyclic (add_connection 2 3 sample).
Proof.
  split.
  - apply add_connection_cyclic_iff; [vm_compute; eauto|].
    right. right. apply tc_once. unfold depends. vm_compute. apply list_elem_of_here.
  - apply (schedule_success_acyclic _ [1; 2; 3]%positive). vm_compute. reflexivity.
Qed.

(** ** The edge primitives and a processing order *)

Lemma schedule_success_topological p order :
  schedule (length (declared_nodes p)) p [] (declared_nodes p) = Some order →
  topological_order p order.
Proof. intros Hrun. by eapply schedule_sound; [|apply schedule_inv_init|]. Qed.

(** X14.  An order in which every node comes after its dependencies stays
    such an order when a connection is removed. *)
Theorem remove_connection_keeps_order (p : program_impl) (prev next : node_ptr)
    (order : list node_ptr) :
  topological_order p order → topological_order (remove_connection prev next p) order.
Proof.
  intros (Hnd & Hall & Hafter). split_and!; [done| |].
  - intros q. by rewrite live_remove_connection.
  - intros i q Hi d [Hd _]%depends_remove_connection. by eapply Hafter.
Qed.

Lemma remove_connection_keeps_order_witness :
  topological_order (remove_connection 1 2 sample) [1; 2; 3]%positive.
Proof.
  apply (remove_connection_keeps_order sample 1 2).
  apply schedule_success_topological. vm_compute. reflexivity.
Defined.

(** X15.  When [prev] stands at position [i] and [next] at position [j] of
    such an order, the order is still valid after
    [add_connection prev next] exactly when [prev] comes first. *)
Theorem add_connection_keeps_order_iff (p : program_impl) (prev next : node_ptr)
    (order : list node_ptr) (i j : nat) :
  topological_order p order →
  order !! i = Some prev → order !! j = Some next →
  topological_order (add_connection prev next p) order ↔ i < j.
Proof.
  intros (Hnd & Hall & Hafter) Hi Hj.
  assert (Hnext : live p next).
  { apply Hall, list_elem_of_lookup. eauto. }
  split.
  - intros (_ & _ & Hafter').
    destruct (Hafter' j next Hj prev) as (k & Hk & Hkp).
    { apply depends_add_connection; auto. }
    by rewrite (NoDup_lookup _ _ _ _ Hnd Hi Hkp).
  - intros Hij. split_and!; [done| |].
    + intros q. unfold add_connection. by rewrite !live_update_node.
    + intros k q Hk d [Hd|[-> ->]]%depends_add_connection; [by eapply Hafter| |done].
      rewrite (NoDup_lookup _ _ _ _ Hnd Hk Hj). eauto.
Qed.

Lemma add_connection_keeps_order_iff_witness :
  topological_order (add_connection 2 3 sample) [1; 2; 3]%positive ↔ 1 < 2.
Proof.
  apply (add_connection_keeps_order_iff sample 2 3 [1; 2; 3]%positive 1 2).
  - apply schedule_success_topological. vm_compute. reflexivity.
  - reflexivity.
  - reflexivity.
Defined.
